(** * Event ticketing program: a shallow embedding of the Anchor program
    [event_ticketing] (programs/event_ticketing/src) and its properties.

    The ledger is modelled as a total map from addresses to accounts, each
    account holding a lamport balance and (possibly) program data.  Every
    instruction is a function from a ledger state to a result; the runtime
    commits the new state on success and discards everything on failure
    ([step]).  Account validation performed by the [#[derive(Accounts)]]
    structs (deserialisation, [Signer], [init], [seeds], [constraint]) is
    written out in front of each handler body: first the account loads and
    signer checks, then the [init] allocations, then the constraints, then
    the handler.

    Modelling choices:
    - program-derived addresses are constructors of [Key]: address
      derivation is collision free and a derived address never signs;
    - lamport balances are unbounded integers (the ledger's total supply is
      far below [u64::MAX], so the system program's checked addition never
      fails);
    - an account created by [init] is funded by its payer with the
      rent-exempt minimum of the [Rent] sysvar (its value on the Solana
      clusters); the runtime's own check of the rent state a transaction
      leaves behind is not part of the program and is not modelled. *)

From Stdlib Require Import ZArith List String Ascii Bool Lia.
Import ListNotations.
Open Scope Z_scope.

(** ** Addresses *)

Inductive Key : Type :=
| KUser (n : nat)                       (* a wallet holding a private key *)
| KEvent (authority : Key) (id : Z)      (* seeds [b"event", authority, event_id] *)
| KVault (ev : Key)                      (* seeds [b"vault", event] *)
| KTicket (ev : Key) (index : Z)         (* seeds [b"ticket", event, sold] *)
| KOrganizer (org : Key).                (* seeds [b"organizer", organizer] *)

Definition key_eq_dec : forall a b : Key, {a = b} + {a <> b}.
Proof. decide equality; first [apply Z.eq_dec | apply Nat.eq_dec]. Defined.

Definition key_eqb (a b : Key) : bool := if key_eq_dec a b then true else false.

(** Only keys with a private key can sign a transaction. *)
Definition is_signer (k : Key) : bool :=
  match k with KUser _ => true | _ => false end.

(** ** constants.rs *)

Definition MAX_NAME_LEN : nat := 50.
Definition MAX_DATE_LEN : nat := 30.

(** ** Account sizes (state.rs) *)

(** [Event::space] *)
Definition Event_space (max_name_len max_date_len : nat) : nat :=
  8 + 32 + 8 + 4 + 4 + 1 + 4 + 4 + max_name_len + 4 + max_date_len.

(** [Ticket::SPACE] *)
Definition Ticket_SPACE : nat := 8 + 32 + 32 + 4 + 1 + 1.

(** [OrganizerRegistry::SPACE] *)
Definition OrganizerRegistry_SPACE : nat := 8 + 32 + 8.

(** ** state.rs *)

Record Event := mkEvent {
  event_authority : Key;
  price : Z;          (* u64 *)
  supply : Z;         (* u32 *)
  sold : Z;           (* u32 *)
  canceled : bool;
  event_id : Z;       (* u32 *)
  name : string;      (* UTF-8 bytes *)
  date : string       (* UTF-8 bytes *)
}.

Record Ticket := mkTicket {
  owner : Key;
  event : Key;
  ticket_id : Z;      (* u32 *)
  is_used : bool;
  refunded : bool
}.

Record OrganizerRegistry := mkOrganizerRegistry {
  organizer : Key;
  registered_at : Z   (* i64 *)
}.

Definition set_sold (e : Event) (n : Z) : Event :=
  mkEvent (event_authority e) (price e) (supply e) n (canceled e)
          (event_id e) (name e) (date e).
Definition set_canceled (e : Event) (b : bool) : Event :=
  mkEvent (event_authority e) (price e) (supply e) (sold e) b
          (event_id e) (name e) (date e).
Definition set_owner (t : Ticket) (o : Key) : Ticket :=
  mkTicket o (event t) (ticket_id t) (is_used t) (refunded t).
Definition set_is_used (t : Ticket) (b : bool) : Ticket :=
  mkTicket (owner t) (event t) (ticket_id t) b (refunded t).
Definition set_refunded (t : Ticket) (b : bool) : Ticket :=
  mkTicket (owner t) (event t) (ticket_id t) (is_used t) b.

(** ** errors.rs and the runtime errors the account checks raise *)

Inductive EventTicketingError :=
| EventAlreadyExists | EventSoldOut | EventCanceled | UnauthorizedTransfer
| TicketAlreadyUsed | AlreadyCheckedIn | UnauthorizedCheckIn
| CannotRefundUsedTicket | AlreadyRefunded | NameTooLong | DateTooLong.

Inductive Error :=
| Custom (e : EventTicketingError)
| AccountNotInitialized
| AccountDiscriminatorMismatch
| AccountNotSigner
| ConstraintRaw
| ConstraintSeeds
| AccountAlreadyInUse
| TransferFromAccountWithData
| InsufficientFunds
| TryingToInitPayerAsProgramAccount.

(** ** The ledger *)

Inductive AccountData :=
| NoData
| EventData (e : Event)
| TicketData (t : Ticket)
| OrganizerData (o : OrganizerRegistry).

Record Account := mkAccount { lamports : Z; data : AccountData }.

Definition State := Key -> Account.

Definition upd (s : State) (k : Key) (a : Account) : State :=
  fun k' => if key_eq_dec k' k then a else s k'.

Definition set_data (s : State) (k : Key) (d : AccountData) : State :=
  upd s k (mkAccount (lamports (s k)) d).

Definition set_lamports (s : State) (k : Key) (l : Z) : State :=
  upd s k (mkAccount l (data (s k))).

(** ** A small error monad ([Result<T>] and [?]) *)

Inductive Result (A : Type) := Ok (a : A) | Err (e : Error).
Arguments Ok {A} a.
Arguments Err {A} e.

Definition bind {A B} (m : Result A) (f : A -> Result B) : Result B :=
  match m with Ok a => f a | Err e => Err e end.

Notation "'let*' x := m 'in' f" := (bind m (fun x => f))
  (at level 200, x name, m at level 100, f at level 200, right associativity).

(** [require!(cond, err)] *)
Definition require (b : bool) (e : Error) : Result unit :=
  if b then Ok tt else Err e.

(** [Account<'info, Event>] / [Account<'info, Ticket>]: deserialisation. *)
Definition load_event (s : State) (k : Key) : Result Event :=
  match data (s k) with
  | EventData e => Ok e
  | NoData => Err AccountNotInitialized
  | _ => Err AccountDiscriminatorMismatch
  end.

Definition load_ticket (s : State) (k : Key) : Result Ticket :=
  match data (s k) with
  | TicketData t => Ok t
  | NoData => Err AccountNotInitialized
  | _ => Err AccountDiscriminatorMismatch
  end.

(** [Signer<'info>] *)
Definition signer (k : Key) : Result unit := require (is_signer k) AccountNotSigner.

Definition is_nodata (d : AccountData) : bool :=
  match d with NoData => true | _ => false end.

(** [system_program::transfer]: the source must carry no data and hold
    enough lamports. *)
Definition system_transfer (s : State) (from to : Key) (amount : Z) : Result State :=
  let* _ := require (match data (s from) with NoData => true | _ => false end)
                    TransferFromAccountWithData in
  let* _ := require (amount <=? lamports (s from)) InsufficientFunds in
  let s1 := set_lamports s from (lamports (s from) - amount) in
  Ok (set_lamports s1 to (lamports (s1 to) + amount)).

(** [Rent::minimum_balance]: 3480 lamports per byte-year, exempt after two
    years, for the data plus 128 bytes of account metadata. *)
Definition minimum_balance (space : nat) : Z := (Z.of_nat space + 128) * 3480 * 2.

(** [#[account(init, payer = payer, space = space, seeds = ..., bump)]]:
    the passed address must be the derived one; an address holding no
    lamports is created by [system_program::create_account] (allocate,
    assign, then the payer funds the rent-exempt minimum); an address that
    already holds lamports is topped up by the payer to the rent-exempt
    minimum, then allocated and assigned.  Allocation fails on an address
    that already holds an account. *)
Definition init_at (s : State) (k expected payer : Key) (space : nat) : Result State :=
  let* _ := require (key_eqb k expected) ConstraintSeeds in
  let current_lamports := lamports (s k) in
  if current_lamports =? 0 then
    let* _ := require (is_nodata (data (s k))) AccountAlreadyInUse in
    system_transfer s payer k (minimum_balance space)
  else
    let* _ := require (negb (key_eqb payer k)) TryingToInitPayerAsProgramAccount in
    let required_lamports :=
      Z.max 0 (Z.max (minimum_balance space) 1 - current_lamports) in
    let* s1 := if 0 <? required_lamports
               then system_transfer s payer k required_lamports else Ok s in
    let* _ := require (is_nodata (data (s1 k))) AccountAlreadyInUse in
    Ok s1.

(** The lamports [init_at] takes from the payer, for an address holding
    [current] lamports. *)
Definition rent_due (current : Z) (space : nat) : Z :=
  if current =? 0 then minimum_balance space
  else Z.max 0 (Z.max (minimum_balance space) 1 - current).

(** [u32] addition, wrap-around written out. *)
Definition u32_add (a b : Z) : Z := (a + b) mod 2 ^ 32.

(** ** instructions/register_organizer.rs *)
Definition register_organizer (s : State) (organizer_registry organizer_key : Key)
    (now : Z) : Result State :=
  let* _ := signer organizer_key in
  let* s1 := init_at s organizer_registry (KOrganizer organizer_key) organizer_key
               OrganizerRegistry_SPACE in
  Ok (set_data s1 organizer_registry
        (OrganizerData (mkOrganizerRegistry organizer_key now))).

(** ** instructions/initialize_event.rs
    [name.len()] and [date.len()] are UTF-8 byte lengths: a Rust [String]
    is modelled as its byte sequence. *)
Definition initialize_event (s : State) (event_key event_authority_key : Key)
    (event_id_arg price_arg supply_arg : Z) (name_arg date_arg : string)
    : Result State :=
  let* _ := signer event_authority_key in
  let* s1 := init_at s event_key (KEvent event_authority_key event_id_arg)
               event_authority_key (Event_space MAX_NAME_LEN MAX_DATE_LEN) in
  let* _ := require (Nat.leb (String.length name_arg) MAX_NAME_LEN) (Custom NameTooLong) in
  let* _ := require (Nat.leb (String.length date_arg) MAX_DATE_LEN) (Custom DateTooLong) in
  Ok (set_data s1 event_key
        (EventData (mkEvent event_authority_key price_arg supply_arg 0 false
                            event_id_arg name_arg date_arg))).

(** ** instructions/mint_ticket.rs *)
Definition mint_ticket (s : State) (event_key ticket_key vault_key buyer : Key)
    : Result State :=
  let* ev := load_event s event_key in
  let* _ := signer buyer in
  let* s0 := init_at s ticket_key (KTicket event_key (sold ev)) buyer Ticket_SPACE in
  let* _ := require (key_eqb vault_key (KVault event_key)) ConstraintSeeds in
  let* _ := require (negb (canceled ev)) (Custom EventCanceled) in
  let* _ := require (sold ev <? supply ev) (Custom EventSoldOut) in
  let* s1 := system_transfer s0 buyer vault_key (price ev) in
  let tid := sold ev in
  let s2 := set_data s1 ticket_key
              (TicketData (mkTicket buyer event_key tid false false)) in
  Ok (set_data s2 event_key (EventData (set_sold ev (u32_add (sold ev) 1)))).

(** ** instructions/transfer_ticket.rs *)
Definition transfer_ticket (s : State) (ticket_key current_owner new_owner : Key)
    : Result State :=
  let* t := load_ticket s ticket_key in
  let* _ := signer current_owner in
  let* _ := require (key_eqb (owner t) current_owner) (Custom UnauthorizedTransfer) in
  let* _ := require (negb (is_used t)) (Custom TicketAlreadyUsed) in
  let* _ := require (negb (refunded t)) (Custom AlreadyRefunded) in
  Ok (set_data s ticket_key (TicketData (set_owner t new_owner))).

(** ** instructions/check_in.rs *)
Definition check_in (s : State) (event_key ticket_key event_authority_key : Key)
    : Result State :=
  let* ev := load_event s event_key in
  let* t := load_ticket s ticket_key in
  let* _ := signer event_authority_key in
  let* _ := require (key_eqb (event t) event_key) (Custom UnauthorizedCheckIn) in
  let* _ := require (key_eqb event_authority_key (event_authority ev))
                    (Custom UnauthorizedCheckIn) in
  let* _ := require (negb (is_used t)) (Custom AlreadyCheckedIn) in
  let* _ := require (negb (refunded t)) (Custom AlreadyRefunded) in
  Ok (set_data s ticket_key (TicketData (set_is_used t true))).

(** ** instructions/refund.rs
    The [ticket_owner] account is an unchecked [AccountInfo]: no constraint
    ties it to [ticket.owner]. *)
Definition refund (s : State)
    (event_key ticket_key vault_key ticket_owner event_authority_key : Key)
    : Result State :=
  let* ev := load_event s event_key in
  let* t := load_ticket s ticket_key in
  let* _ := signer event_authority_key in
  let* _ := require (key_eqb (event_authority ev) event_authority_key) ConstraintRaw in
  let* _ := require (key_eqb (event t) event_key) ConstraintRaw in
  let* _ := require (key_eqb vault_key (KVault event_key)) ConstraintSeeds in
  let* _ := require (negb (is_used t)) (Custom CannotRefundUsedTicket) in
  let* _ := require (negb (refunded t)) (Custom AlreadyRefunded) in
  let refund_amount := price ev in
  let* s1 := system_transfer s vault_key ticket_owner refund_amount in
  Ok (set_data s1 ticket_key (TicketData (set_refunded t true))).

(** ** instructions/cancel_event.rs *)
Definition cancel_event (s : State) (event_key event_authority_key : Key)
    : Result State :=
  let* ev := load_event s event_key in
  let* _ := signer event_authority_key in
  let* _ := require (key_eqb (event_authority ev) event_authority_key) ConstraintRaw in
  Ok (set_data s event_key (EventData (set_canceled ev true))).

(** ** Transactions *)

(** The instructions of lib.rs with their accounts and arguments, plus a
    plain system-program transfer between wallets (the rest of the ledger). *)
Inductive Instr :=
| IRegisterOrganizer (organizer_registry organizer_key : Key) (now : Z)
| IInitializeEvent (event_key event_authority_key : Key)
    (event_id_arg price_arg supply_arg : Z) (name_arg date_arg : string)
| IMintTicket (event_key ticket_key vault_key buyer : Key)
| ITransferTicket (ticket_key current_owner new_owner : Key)
| ICheckIn (event_key ticket_key event_authority_key : Key)
| IRefund (event_key ticket_key vault_key ticket_owner event_authority_key : Key)
| ICancelEvent (event_key event_authority_key : Key)
| ISystemTransfer (from to : Key) (amount : Z).

Definition exec (s : State) (i : Instr) : Result State :=
  match i with
  | IRegisterOrganizer r o now => register_organizer s r o now
  | IInitializeEvent ek ak eid p sup n d => initialize_event s ek ak eid p sup n d
  | IMintTicket ek tk vk b => mint_ticket s ek tk vk b
  | ITransferTicket tk co no => transfer_ticket s tk co no
  | ICheckIn ek tk ak => check_in s ek tk ak
  | IRefund ek tk vk o ak => refund s ek tk vk o ak
  | ICancelEvent ek ak => cancel_event s ek ak
  | ISystemTransfer f t a => let* _ := signer f in system_transfer s f t a
  end.

(** Atomic execution: full commit or full rollback. *)
Definition step (s : State) (i : Instr) : State :=
  match exec s i with Ok s' => s' | Err _ => s end.

Definition run (s : State) (is : list Instr) : State := fold_left step is s.

(** Instruction arguments are deserialised from their fixed-width types. *)
Definition u32_range (z : Z) : Prop := 0 <= z < 2 ^ 32.
Definition u64_range (z : Z) : Prop := 0 <= z < 2 ^ 64.

Definition instr_wf (i : Instr) : Prop :=
  match i with
  | IInitializeEvent _ _ eid p sup _ _ => u32_range eid /\ u64_range p /\ u32_range sup
  | ISystemTransfer _ _ a => u64_range a
  | _ => True
  end.

(** A genesis ledger: wallets hold lamports, no account holds data. *)
Definition genesis (bal : nat -> Z) : State :=
  fun k => mkAccount (match k with KUser n => bal n | _ => 0 end) NoData.

Inductive reachable : State -> Prop :=
| reachable_genesis bal : reachable (genesis bal)
| reachable_step s i : reachable s -> instr_wf i -> reachable (step s i).

(** Convenience accessors. *)
Definition event_at (s : State) (k : Key) : option Event :=
  match data (s k) with EventData e => Some e | _ => None end.
Definition ticket_at (s : State) (k : Key) : option Ticket :=
  match data (s k) with TicketData t => Some t | _ => None end.

(** Lamports of each wallet in the scenarios below (10 SOL). *)
Definition wallet_balance : Z := 10000000000.

(** ** Scenario A of the design: two mints then sold out. *)
Module ScenarioA.
Definition O : Key := KUser 0.
Definition B : Key := KUser 1.
Definition EV : Key := KEvent O 1.
Definition s0 : State := genesis (fun _ => wallet_balance).
Definition s1 : State :=
  run s0 [IInitializeEvent EV O 1 1000 2 "Gig" "2025-01-01"].
Definition s3 : State :=
  run s1 [IMintTicket EV (KTicket EV 0) (KVault EV) B;
          IMintTicket EV (KTicket EV 1) (KVault EV) B].
(** The event after its creation and after the two mints. *)
Definition ev1 : Event := mkEvent O 1000 2 0 false 1 "Gig" "2025-01-01".
Definition ev3 : Event := mkEvent O 1000 2 2 false 1 "Gig" "2025-01-01".
End ScenarioA.

(** ** Scenario B: a canceled event with one checked-in and one fresh ticket. *)
Module ScenarioB.
Definition O : Key := KUser 0.
Definition B : Key := KUser 1.
Definition EV : Key := KEvent O 1.
Definition T0 : Key := KTicket EV 0.
Definition T1 : Key := KTicket EV 1.
Definition txs : list Instr :=
  [IInitializeEvent EV O 1 1000 3 "Gig" "2025-01-01";
   IMintTicket EV T0 (KVault EV) B;
   IMintTicket EV T1 (KVault EV) B;
   ICheckIn EV T0 O;
   ICancelEvent EV O].
Definition s : State := run (genesis (fun _ => wallet_balance)) txs.
(** The event and the tickets [s] holds. *)
Definition ev : Event := mkEvent O 1000 3 2 true 1 "Gig" "2025-01-01".
Definition t0 : Ticket := mkTicket B EV 0 true false.
Definition t1 : Ticket := mkTicket B EV 1 false false.
(** Then ticket 1 is refunded to its owner. *)
Definition s_refunded : State := run s [IRefund EV T1 (KVault EV) B O].
Definition t1_refunded : Ticket := mkTicket B EV 1 false true.
End ScenarioB.

(** ** Scenario C: wallets other than the organizer's hold 5000 lamports,
    enough for a ticket's price but not for the rent of an account. *)
Module ScenarioC.
Definition O : Key := KUser 0.
Definition B : Key := KUser 1.
Definition EV : Key := KEvent O 1.
Definition s0 : State :=
  genesis (fun n => match n with 0%nat => wallet_balance | _ => 5000 end).
(** The organizer creates an event with price 1000 and cancels it. *)
Definition s : State :=
  run s0 [IInitializeEvent EV O 1 1000 2 "Gig" "2025-01-01"; ICancelEvent EV O].
Definition ev : Event := mkEvent O 1000 2 0 true 1 "Gig" "2025-01-01".
End ScenarioC.

(** ** Characters of a UTF-8 string
    The spec counts the length of [name] and [date] in characters.  On the
    byte sequence of a Rust [String] (valid UTF-8) the number of characters
    is the number of bytes that are not continuation bytes [0b10xxxxxx]. *)
Fixpoint utf8_char_count (x : string) : nat :=
  match x with
  | EmptyString => 0
  | String b r =>
      (if Nat.eqb (Nat.land (nat_of_ascii b) 192) 128 then 0 else 1)
      + utf8_char_count r
  end.

Fixpoint str_repeat (n : nat) (x : string) : string :=
  match n with
  | 0%nat => EmptyString
  | S m => append x (str_repeat m x)
  end.

(** U+00E9 (e with acute accent), two bytes in UTF-8. *)
Definition e_acute : string :=
  String (ascii_of_nat 195) (String (ascii_of_nat 169) EmptyString).

(** ** Signers of each instruction (the [Signer<'info>] fields of its
    accounts struct) *)
Definition signers (i : Instr) : list Key :=
  match i with
  | IRegisterOrganizer _ o _ => [o]
  | IInitializeEvent _ ak _ _ _ _ _ => [ak]
  | IMintTicket _ _ _ b => [b]
  | ITransferTicket _ co _ => [co]
  | ICheckIn _ _ ak => [ak]
  | IRefund _ _ _ _ ak => [ak]
  | ICancelEvent _ ak => [ak]
  | ISystemTransfer f _ _ => [f]
  end.

(** The bytes an [Event] account takes: Anchor's 8-byte discriminator, then
    the Borsh encoding of the fields in declaration order ([Pubkey] 32
    bytes, [u64] 8, [u32] 4, [bool] 1, [String] a 4-byte length and its
    bytes). *)
Definition event_serialized_len (e : Event) : nat :=
  8 + 32 + 8 + 4 + 4 + 1 + 4 + (4 + String.length (name e)) + (4 + String.length (date e)).

Example scenarioA_sold :
  option_map sold (event_at ScenarioA.s3 ScenarioA.EV) = Some 2.
Proof. vm_compute. reflexivity. Qed.

Example scenarioA_vault :
  lamports (ScenarioA.s3 (KVault ScenarioA.EV)) = 2000.
Proof. vm_compute. reflexivity. Qed.

Example scenarioA_sold_out :
  exec ScenarioA.s3 (IMintTicket ScenarioA.EV (KTicket ScenarioA.EV 2)
                       (KVault ScenarioA.EV) ScenarioA.B)
  = Err (Custom EventSoldOut).
Proof. vm_compute. reflexivity. Qed.

(** ** Invariants of reachable ledgers *)

Definition unrefunded_data (d : AccountData) : bool :=
  match d with TicketData t => negb (refunded t) | _ => false end.

(** Is the ticket with index [i] of event [ek] minted and not refunded? *)
Definition unrefunded_at (s : State) (ek : Key) (i : nat) : bool :=
  unrefunded_data (data (s (KTicket ek (Z.of_nat i)))).

(** Number of unrefunded tickets among the indices [0 .. n-1]. *)
Definition unrefunded_count (s : State) (ek : Key) (n : nat) : nat :=
  List.length (filter (unrefunded_at s ek) (seq 0 n)).

(** Addresses at which the program allocates its records. *)
Definition is_data_key (k : Key) : bool :=
  match k with KEvent _ _ | KTicket _ _ | KOrganizer _ => true | _ => false end.

(** Records live at addresses derived with their own seeds. *)
Definition data_fits (k : Key) (d : AccountData) : bool :=
  match d, k with
  | NoData, _ => true
  | EventData _, KEvent _ _ => true
  | TicketData _, KTicket _ _ => true
  | OrganizerData _, KOrganizer _ => true
  | _, _ => false
  end.

Record Inv (s : State) : Prop := {
  inv_event : forall k e, data (s k) = EventData e ->
    0 <= sold e <= supply e /\ supply e < 2 ^ 32 /\ 0 <= price e;
  inv_ticket : forall k t, data (s k) = TicketData t ->
    k = KTicket (event t) (ticket_id t) /\
    exists e, data (s (event t)) = EventData e /\ 0 <= ticket_id t < sold e;
  inv_fits : forall k, data_fits k (data (s k)) = true;
  inv_vault_nonneg : forall ek, 0 <= lamports (s (KVault ek));
  inv_vault : forall ek e, data (s ek) = EventData e ->
    price e * Z.of_nat (unrefunded_count s ek (Z.to_nat (sold e)))
      <= lamports (s (KVault ek))
}.

(** Size of the account that holds a record (its [space] at [init]). *)
Definition space_of (d : AccountData) : nat :=
  match d with
  | NoData => 0
  | EventData _ => Event_space MAX_NAME_LEN MAX_DATE_LEN
  | TicketData _ => Ticket_SPACE
  | OrganizerData _ => OrganizerRegistry_SPACE
  end.

(** Every record is held by an account with at least the rent-exempt
    minimum of its size. *)
Definition rent_exempt (s : State) : Prop :=
  forall k, data (s k) <> NoData ->
    minimum_balance (space_of (data (s k))) <= lamports (s k).

(** ** Mint log: the (event, ticket id) pairs created by successful mints *)

Definition minted (s : State) (i : Instr) : list (Key * Z) :=
  match i with
  | IMintTicket ek tk _ _ =>
      match exec s i with
      | Ok s' => match data (s' tk) with
                 | TicketData t => [(ek, ticket_id t)]
                 | _ => []
                 end
      | Err _ => []
      end
  | _ => []
  end.

Fixpoint mint_log (s : State) (is : list Instr) : list (Key * Z) :=
  match is with
  | [] => []
  | i :: is' => minted s i ++ mint_log (step s i) is'
  end.

Definition ids_of (ek : Key) (log : list (Key * Z)) : list Z :=
  map snd (filter (fun p => key_eqb (fst p) ek) log).

Definition sold_of (s : State) (ek : Key) : Z :=
  match data (s ek) with EventData e => sold e | _ => 0 end.

(** The log of an event lists its ticket ids [0 .. sold - 1] in order. *)
Definition log_ok (s : State) (log : list (Key * Z)) : Prop :=
  forall ek, ids_of ek log = map Z.of_nat (seq 0 (Z.to_nat (sold_of s ek))).

(** * Basic facts about the ledger and the monad *)

Lemma key_eqb_true a b : key_eqb a b = true <-> a = b.
Proof. unfold key_eqb; destruct (key_eq_dec a b); split; congruence. Qed.

Lemma key_eqb_refl a : key_eqb a a = true.
Proof. apply key_eqb_true; reflexivity. Qed.

Lemma key_eqb_false a b : a <> b -> key_eqb a b = false.
Proof. unfold key_eqb; destruct (key_eq_dec a b); congruence. Qed.

Lemma data_set_data s k d k' :
  data (set_data s k d k') = if key_eq_dec k' k then d else data (s k').
Proof. unfold set_data, upd; destruct (key_eq_dec k' k); reflexivity. Qed.

Lemma data_set_lamports s k l k' : data (set_lamports s k l k') = data (s k').
Proof. unfold set_lamports, upd; destruct (key_eq_dec k' k); subst; reflexivity. Qed.

Lemma lamports_set_data s k d k' : lamports (set_data s k d k') = lamports (s k').
Proof. unfold set_data, upd; destruct (key_eq_dec k' k); subst; reflexivity. Qed.

Lemma lamports_set_lamports s k l k' :
  lamports (set_lamports s k l k') = if key_eq_dec k' k then l else lamports (s k').
Proof. unfold set_lamports, upd; destruct (key_eq_dec k' k); reflexivity. Qed.

Lemma set_data_same s k d : data (s k) = d -> forall k', set_data s k d k' = s k'.
Proof.
  intros H k'; unfold set_data, upd; destruct (key_eq_dec k' k); subst; [|reflexivity].
  destruct (s k); reflexivity.
Qed.

Lemma require_ok b e u : require b e = Ok u -> b = true.
Proof. destruct b; simpl; congruence. Qed.

Lemma load_event_ok s k e : load_event s k = Ok e -> data (s k) = EventData e.
Proof. unfold load_event; destruct (data (s k)); congruence. Qed.

Lemma load_ticket_ok s k t : load_ticket s k = Ok t -> data (s k) = TicketData t.
Proof. unfold load_ticket; destruct (data (s k)); congruence. Qed.

Lemma signer_ok k u : signer k = Ok u -> is_signer k = true.
Proof. apply require_ok. Qed.

Lemma system_transfer_ok s f t a s' :
  system_transfer s f t a = Ok s' ->
  data (s f) = NoData /\ a <= lamports (s f) /\
  s' = set_lamports (set_lamports s f (lamports (s f) - a)) t
         (lamports (set_lamports s f (lamports (s f) - a) t) + a).
Proof.
  unfold system_transfer, require; intros H.
  destruct (data (s f)); simpl in H; try congruence.
  destruct (a <=? lamports (s f)) eqn:E; simpl in H; [|congruence].
  apply Z.leb_le in E; inversion H; auto.
Qed.

Lemma system_transfer_lamports s f t a s' k :
  system_transfer s f t a = Ok s' ->
  lamports (s' k) =
    lamports (s k) - (if key_eq_dec k f then a else 0)
                   + (if key_eq_dec k t then a else 0).
Proof.
  intros H; apply system_transfer_ok in H as (_ & _ & ->).
  rewrite !lamports_set_lamports.
  destruct (key_eq_dec k t), (key_eq_dec k f), (key_eq_dec t f); subst;
    try congruence; lia.
Qed.

Lemma system_transfer_data s f t a s' k :
  system_transfer s f t a = Ok s' -> data (s' k) = data (s k).
Proof.
  intros H; apply system_transfer_ok in H as (_ & _ & ->).
  rewrite !data_set_lamports; reflexivity.
Qed.

(** Peel the [let*] chain of a successful instruction. *)
Ltac inv_bind :=
  repeat match goal with
  | H : bind ?m _ = Ok _ |- _ =>
      let E := fresh "E" in
      destruct m eqn:E; cbn [bind] in H; [| discriminate H]
  end.

Ltac ok_facts :=
  repeat match goal with
  | E : require _ _ = Ok _ |- _ => apply require_ok in E
  | E : load_event _ _ = Ok _ |- _ => apply load_event_ok in E
  | E : load_ticket _ _ = Ok _ |- _ => apply load_ticket_ok in E
  | E : signer _ = Ok _ |- _ => apply signer_ok in E
  | E : key_eqb _ _ = true |- _ => apply key_eqb_true in E
  | E : negb _ = true |- _ => apply negb_true_iff in E
  | E : (_ <? _) = true |- _ => apply Z.ltb_lt in E
  | E : (_ <=? _) = true |- _ => apply Z.leb_le in E
  | E : Nat.leb _ _ = true |- _ => apply Nat.leb_le in E
  end.

Lemma account_ext (a b : Account) :
  lamports a = lamports b -> data a = data b -> a = b.
Proof. destruct a, b; cbn; intros -> ->; reflexivity. Qed.

Lemma step_err s i e : exec s i = Err e -> step s i = s.
Proof. unfold step; intros ->; reflexivity. Qed.

(** ** [init_at] *)

Lemma minimum_balance_pos sp : 0 < minimum_balance sp.
Proof. unfold minimum_balance; lia. Qed.

Lemma rent_due_nonneg L sp : 0 <= rent_due L sp.
Proof.
  unfold rent_due; pose proof (minimum_balance_pos sp).
  destruct (L =? 0); lia.
Qed.

(** After paying [rent_due] an address holds at least the rent-exempt
    minimum. *)
Lemma rent_due_covers L sp : minimum_balance sp <= L + rent_due L sp.
Proof.
  unfold rent_due; pose proof (minimum_balance_pos sp).
  destruct (Z.eqb_spec L 0); lia.
Qed.

(** An address holding the rent-exempt minimum owes nothing more. *)
Lemma rent_due_settled L sp : minimum_balance sp <= L -> L <> 0 /\ rent_due L sp = 0.
Proof.
  intros H; pose proof (minimum_balance_pos sp); unfold rent_due.
  destruct (Z.eqb_spec L 0); lia.
Qed.

Lemma init_at_ok s k x p sp s1 :
  init_at s k x p sp = Ok s1 ->
  k = x /\ data (s k) = NoData /\
  (0 < rent_due (lamports (s k)) sp ->
     data (s p) = NoData /\ rent_due (lamports (s k)) sp <= lamports (s p)) /\
  (forall k', data (s1 k') = data (s k')) /\
  (forall k', lamports (s1 k') =
     lamports (s k') - (if key_eq_dec k' p then rent_due (lamports (s k)) sp else 0)
                     + (if key_eq_dec k' k then rent_due (lamports (s k)) sp else 0)).
Proof.
  intros H; unfold init_at in H.
  destruct (key_eqb k x) eqn:Ek; cbn [require bind] in H; [|discriminate].
  apply key_eqb_true in Ek; subst x.
  unfold rent_due; destruct (Z.eqb_spec (lamports (s k)) 0) as [L0|L0].
  - destruct (data (s k)) eqn:D; cbn [is_nodata require bind] in H; try discriminate.
    pose proof (system_transfer_ok _ _ _ _ _ H) as (Hp & Hm & _).
    split; [reflexivity|]; split; [reflexivity|]; split; [auto|]; split.
    + intros k'; apply (system_transfer_data _ _ _ _ _ _ H).
    + intros k'; apply (system_transfer_lamports _ _ _ _ _ _ H).
  - destruct (key_eqb p k); cbn [negb require bind] in H; [discriminate|].
    remember (Z.max 0 (Z.max (minimum_balance sp) 1 - lamports (s k))) as r eqn:Hr.
    destruct (Z.ltb_spec 0 r) as [Hpos|Hpos].
    + destruct (system_transfer s p k r) as [s2|] eqn:T; cbn [bind] in H; [|discriminate].
      rewrite (system_transfer_data _ _ _ _ _ _ T) in H.
      pose proof (system_transfer_ok _ _ _ _ _ T) as (Hp & Hm & _).
      destruct (data (s k)) eqn:D; cbn [is_nodata require bind] in H; try discriminate.
      injection H as <-.
      split; [reflexivity|]; split; [reflexivity|]; split; [auto|]; split.
      * intros k'; apply (system_transfer_data _ _ _ _ _ _ T).
      * intros k'; apply (system_transfer_lamports _ _ _ _ _ _ T).
    + cbn [bind] in H.
      destruct (data (s k)) eqn:D; cbn [is_nodata require bind] in H; try discriminate.
      injection H as <-.
      replace r with 0 by lia.
      split; [reflexivity|]; split; [reflexivity|]; split; [lia|]; split; [reflexivity|].
      intros k'; destruct (key_eq_dec k' p), (key_eq_dec k' k); lia.
Qed.

(** An address that already holds an account with its rent-exempt minimum
    cannot be initialised again. *)
Lemma init_at_in_use s k p sp :
  is_nodata (data (s k)) = false -> minimum_balance sp <= lamports (s k) -> p <> k ->
  init_at s k k p sp = Err AccountAlreadyInUse.
Proof.
  intros Hd Hl Hp; destruct (rent_due_settled _ _ Hl) as (Hnz & Hzero).
  unfold init_at; rewrite key_eqb_refl; cbn [require bind].
  apply Z.eqb_neq in Hnz; rewrite Hnz.
  rewrite (key_eqb_false _ _ Hp); cbn [negb require bind].
  unfold rent_due in Hzero; apply Z.eqb_neq in Hnz; rewrite <- Z.eqb_neq in Hnz.
  rewrite Hnz in Hzero; rewrite Hzero; cbn [Z.ltb Z.compare bind require].
  rewrite Hd; reflexivity.
Qed.

(** An [init_at] at a free derived address, its payer a wallet without
    data: it fails for lack of funds exactly when rent is due and the payer
    cannot pay it. *)
Lemma init_at_pay s k p sp :
  data (s k) = NoData -> data (s p) = NoData -> p <> k ->
  (0 < rent_due (lamports (s k)) sp -> lamports (s p) < rent_due (lamports (s k)) sp ->
     init_at s k k p sp = Err InsufficientFunds) /\
  ((0 < rent_due (lamports (s k)) sp -> rent_due (lamports (s k)) sp <= lamports (s p)) ->
     exists s1, init_at s k k p sp = Ok s1 /\
       (forall k', data (s1 k') = data (s k')) /\
       (forall k', lamports (s1 k') =
          lamports (s k') - (if key_eq_dec k' p then rent_due (lamports (s k)) sp else 0)
                          + (if key_eq_dec k' k then rent_due (lamports (s k)) sp else 0))).
Proof.
  intros Hk Hp Hpk.
  assert (Hx : init_at s k k p sp =
    let* s1 := (if 0 <? rent_due (lamports (s k)) sp
                then system_transfer s p k (rent_due (lamports (s k)) sp) else Ok s) in
    let* _ := require (is_nodata (data (s1 k))) AccountAlreadyInUse in
    Ok s1).
  { unfold init_at, rent_due; rewrite key_eqb_refl; cbn [require bind].
    destruct (Z.eqb_spec (lamports (s k)) 0).
    - rewrite Hk; cbn [is_nodata require bind].
      rewrite (proj2 (Z.ltb_lt _ _) (minimum_balance_pos sp)).
      unfold system_transfer, require; rewrite Hp; cbn [bind].
      destruct (minimum_balance sp <=? lamports (s p)); cbn [bind]; [|reflexivity].
      rewrite data_set_lamports, data_set_lamports, Hk; reflexivity.
    - rewrite (key_eqb_false _ _ Hpk); reflexivity. }
  pose proof (rent_due_nonneg (lamports (s k)) sp) as Hnn.
  split.
  - intros Hpos Hlt; rewrite Hx.
    destruct (Z.ltb_spec 0 (rent_due (lamports (s k)) sp)); [|lia].
    unfold system_transfer, require; rewrite Hp; cbn [bind].
    destruct (Z.leb_spec (rent_due (lamports (s k)) sp) (lamports (s p))); [lia|reflexivity].
  - intros Hle.
    assert (Hok : exists s1, init_at s k k p sp = Ok s1).
    { rewrite Hx; destruct (Z.ltb_spec 0 (rent_due (lamports (s k)) sp)) as [Hpos|].
      - unfold system_transfer at 1, require at 1 2; rewrite Hp; cbn [bind].
        apply Hle, Z.leb_le in Hpos; rewrite Hpos; cbn [bind].
        rewrite data_set_lamports, data_set_lamports, Hk; cbn; eexists; reflexivity.
      - cbn [bind]; rewrite Hk; cbn; eexists; reflexivity. }
    destruct Hok as [s1 Hok]; exists s1; split; [exact Hok|].
    destruct (init_at_ok _ _ _ _ _ _ Hok) as (_ & _ & _ & Hd & Hl); auto.
Qed.

Ltac case_keys :=
  repeat match goal with
  | |- context[key_eq_dec ?a ?b] => destruct (key_eq_dec a b); subst
  end.

(** * Effects of the successful instructions *)

Lemma mint_ticket_ok s ek tk vk b s' :
  mint_ticket s ek tk vk b = Ok s' ->
  exists e, data (s ek) = EventData e /\ is_signer b = true /\
    tk = KTicket ek (sold e) /\ data (s tk) = NoData /\ vk = KVault ek /\
    canceled e = false /\ sold e < supply e /\
    data (s b) = NoData /\
    price e + rent_due (lamports (s tk)) Ticket_SPACE <= lamports (s b) /\
    (forall k, data (s' k) =
       if key_eq_dec k ek then EventData (set_sold e (u32_add (sold e) 1))
       else if key_eq_dec k tk then TicketData (mkTicket b ek (sold e) false false)
       else data (s k)) /\
    (forall k, lamports (s' k) =
       lamports (s k)
       - (if key_eq_dec k b then price e + rent_due (lamports (s tk)) Ticket_SPACE else 0)
       + (if key_eq_dec k vk then price e else 0)
       + (if key_eq_dec k tk then rent_due (lamports (s tk)) Ticket_SPACE else 0)).
Proof.
  intros Hx; unfold mint_ticket in Hx; inv_bind; ok_facts; injection Hx as <-.
  lazymatch goal with E : system_transfer _ _ _ _ = Ok _ |- _ => rename E into Etr end.
  lazymatch goal with E : init_at _ _ _ _ _ = Ok _ |- _ => rename E into Ei end.
  rename a into e.
  apply init_at_ok in Ei as (Htk & Hfree & _ & Hid & Hil).
  pose proof (system_transfer_ok _ _ _ _ _ Etr) as (Hb & Hp & _).
  rewrite Hid in Hb; rewrite Hil in Hp.
  assert (Hbt : b <> tk) by (intros ->; subst tk; discriminate).
  assert (Hbv : b <> vk) by (intros ->; subst vk; discriminate).
  destruct (key_eq_dec b b) as [_|]; [|congruence].
  destruct (key_eq_dec b tk) as [|_]; [congruence|].
  exists e; subst; repeat split; auto; [lia| |].
  - intros k; rewrite !data_set_data, (system_transfer_data _ _ _ _ _ _ Etr), Hid.
    case_keys; congruence.
  - intros k; rewrite !lamports_set_data, (system_transfer_lamports _ _ _ _ _ _ Etr), Hil.
    case_keys; try congruence; lia.
Qed.

Lemma refund_ok s ek tk vk o ak s' :
  refund s ek tk vk o ak = Ok s' ->
  exists e t, data (s ek) = EventData e /\ data (s tk) = TicketData t /\
    is_signer ak = true /\ event_authority e = ak /\ event t = ek /\
    vk = KVault ek /\ is_used t = false /\ refunded t = false /\
    data (s vk) = NoData /\ price e <= lamports (s vk) /\
    (forall k, data (s' k) =
       if key_eq_dec k tk then TicketData (set_refunded t true) else data (s k)) /\
    (forall k, lamports (s' k) =
       lamports (s k) - (if key_eq_dec k vk then price e else 0)
                      + (if key_eq_dec k o then price e else 0)).
Proof.
  intros Hx; unfold refund in Hx; inv_bind; ok_facts; injection Hx as <-.
  lazymatch goal with E : system_transfer _ _ _ _ = Ok _ |- _ => rename E into Etr end.
  pose proof (system_transfer_ok _ _ _ _ _ Etr) as (Hv & Hp & _).
  exists a, a0; subst; repeat split; auto.
  - intros k; rewrite !data_set_data, (system_transfer_data _ _ _ _ _ _ Etr); reflexivity.
  - intros k; rewrite !lamports_set_data; apply (system_transfer_lamports _ _ _ _ _ _ Etr).
Qed.

Lemma transfer_ticket_ok s tk co no s' :
  transfer_ticket s tk co no = Ok s' ->
  exists t, data (s tk) = TicketData t /\ is_signer co = true /\ owner t = co /\
    is_used t = false /\ refunded t = false /\
    (forall k, data (s' k) =
       if key_eq_dec k tk then TicketData (set_owner t no) else data (s k)) /\
    (forall k, lamports (s' k) = lamports (s k)).
Proof.
  intros Hx; unfold transfer_ticket in Hx; inv_bind; ok_facts; injection Hx as <-.
  exists a; repeat split; auto.
  - intros k; apply data_set_data.
  - intros k; apply lamports_set_data.
Qed.

Lemma check_in_ok s ek tk ak s' :
  check_in s ek tk ak = Ok s' ->
  exists e t, data (s ek) = EventData e /\ data (s tk) = TicketData t /\
    is_signer ak = true /\ event t = ek /\ ak = event_authority e /\
    is_used t = false /\ refunded t = false /\
    (forall k, data (s' k) =
       if key_eq_dec k tk then TicketData (set_is_used t true) else data (s k)) /\
    (forall k, lamports (s' k) = lamports (s k)).
Proof.
  intros Hx; unfold check_in in Hx; inv_bind; ok_facts; injection Hx as <-.
  exists a, a0; repeat split; auto.
  - intros k; apply data_set_data.
  - intros k; apply lamports_set_data.
Qed.

Lemma cancel_event_ok s ek ak s' :
  cancel_event s ek ak = Ok s' ->
  exists e, data (s ek) = EventData e /\ is_signer ak = true /\
    event_authority e = ak /\
    (forall k, data (s' k) =
       if key_eq_dec k ek then EventData (set_canceled e true) else data (s k)) /\
    (forall k, lamports (s' k) = lamports (s k)).
Proof.
  intros Hx; unfold cancel_event in Hx; inv_bind; ok_facts; injection Hx as <-.
  exists a; repeat split; auto.
  - intros k; apply data_set_data.
  - intros k; apply lamports_set_data.
Qed.

Lemma initialize_event_ok s ek ak eid p sup nm dt s' :
  initialize_event s ek ak eid p sup nm dt = Ok s' ->
  is_signer ak = true /\ ek = KEvent ak eid /\ data (s ek) = NoData /\
  (String.length nm <= MAX_NAME_LEN)%nat /\ (String.length dt <= MAX_DATE_LEN)%nat /\
  (forall k, data (s' k) =
     if key_eq_dec k ek then EventData (mkEvent ak p sup 0 false eid nm dt)
     else data (s k)) /\
  (forall k, lamports (s' k) =
     lamports (s k)
     - (if key_eq_dec k ak
        then rent_due (lamports (s ek)) (Event_space MAX_NAME_LEN MAX_DATE_LEN) else 0)
     + (if key_eq_dec k ek
        then rent_due (lamports (s ek)) (Event_space MAX_NAME_LEN MAX_DATE_LEN) else 0)).
Proof.
  intros Hx; unfold initialize_event in Hx; inv_bind; ok_facts; injection Hx as <-.
  lazymatch goal with E : init_at _ _ _ _ _ = Ok _ |- _ => rename E into Ei end.
  apply init_at_ok in Ei as (Hek & Hfree & _ & Hid & Hil).
  repeat split; auto.
  - intros k; rewrite data_set_data, Hid; reflexivity.
  - intros k; rewrite lamports_set_data; apply Hil.
Qed.

Lemma register_organizer_ok s r o now s' :
  register_organizer s r o now = Ok s' ->
  is_signer o = true /\ r = KOrganizer o /\ data (s r) = NoData /\
  (forall k, data (s' k) =
     if key_eq_dec k r then OrganizerData (mkOrganizerRegistry o now)
     else data (s k)) /\
  (forall k, lamports (s' k) =
     lamports (s k)
     - (if key_eq_dec k o then rent_due (lamports (s r)) OrganizerRegistry_SPACE else 0)
     + (if key_eq_dec k r then rent_due (lamports (s r)) OrganizerRegistry_SPACE else 0)).
Proof.
  intros Hx; unfold register_organizer in Hx; inv_bind; ok_facts; injection Hx as <-.
  lazymatch goal with E : init_at _ _ _ _ _ = Ok _ |- _ => rename E into Ei end.
  apply init_at_ok in Ei as (Hr & Hfree & _ & Hid & Hil).
  repeat split; auto.
  - intros k; rewrite data_set_data, Hid; reflexivity.
  - intros k; rewrite lamports_set_data; apply Hil.
Qed.

Lemma system_transfer_ix_ok s f t a s' :
  (let* _ := signer f in system_transfer s f t a) = Ok s' ->
  is_signer f = true /\ data (s f) = NoData /\ a <= lamports (s f) /\
  (forall k, data (s' k) = data (s k)) /\
  (forall k, lamports (s' k) =
     lamports (s k) - (if key_eq_dec k f then a else 0)
                    + (if key_eq_dec k t then a else 0)).
Proof.
  intros Hx; inv_bind; ok_facts.
  pose proof (system_transfer_ok _ _ _ _ _ Hx) as (Hf & Ha & _).
  repeat split; auto.
  - intros k; apply (system_transfer_data _ _ _ _ _ _ Hx).
  - intros k; apply (system_transfer_lamports _ _ _ _ _ _ Hx).
Qed.

(** A used ticket stays a used ticket. *)
Lemma exec_keeps_used s i s' k t :
  exec s i = Ok s' -> data (s k) = TicketData t -> is_used t = true ->
  exists t', data (s' k) = TicketData t' /\ is_used t' = true.
Proof.
  intros Hx Hk Hu.
  destruct i; cbn [exec] in Hx;
    [ apply register_organizer_ok in Hx as (_ & _ & ? & Hd & _)
    | apply initialize_event_ok in Hx as (_ & _ & ? & _ & _ & Hd & _)
    | apply mint_ticket_ok in Hx as (? & ? & _ & _ & ? & _ & _ & _ & _ & _ & Hd & _)
    | apply transfer_ticket_ok in Hx as (? & ? & _ & _ & _ & _ & Hd & _)
    | apply check_in_ok in Hx as (? & ? & _ & ? & _ & _ & _ & _ & _ & Hd & _)
    | apply refund_ok in Hx as (? & ? & _ & ? & _ & _ & _ & _ & _ & _ & _ & _ & Hd & _)
    | apply cancel_event_ok in Hx as (? & ? & _ & _ & Hd & _)
    | apply system_transfer_ix_ok in Hx as (_ & _ & _ & Hd & _) ];
    rewrite Hd; case_keys; try congruence; eauto.
  all: rewrite Hk in *;
       match goal with H : TicketData _ = TicketData _ |- _ => injection H as <- end.
  all: eexists; split; [reflexivity|]; cbn; assumption.
Qed.

Lemma step_keeps_used s i k t :
  data (s k) = TicketData t -> is_used t = true ->
  exists t', data (step s i k) = TicketData t' /\ is_used t' = true.
Proof.
  intros Hk Hu; unfold step; destruct (exec s i) eqn:Hx; eauto.
  eapply exec_keeps_used; eauto.
Qed.

(** * Claims *)

(** ** transfer_ticket *)

(** C7: [transfer_ticket] checks, in order, that the signing caller is
    [ticket.owner] (else [UnauthorizedTransfer]), that the ticket is unused
    (else [TicketAlreadyUsed]) and unrefunded (else [AlreadyRefunded]); on
    success it replaces [owner] by [new_owner], touches no other field or
    account and moves no lamports; on any failure the owner is unchanged. *)
Theorem transfer_ticket_spec (s : State) (tk co no : Key) (t : Ticket)
    (Ht : data (s tk) = TicketData t) (Hsig : is_signer co = true) :
  let i := ITransferTicket tk co no in
  (owner t <> co -> exec s i = Err (Custom UnauthorizedTransfer)) /\
  (owner t = co -> is_used t = true -> exec s i = Err (Custom TicketAlreadyUsed)) /\
  (owner t = co -> is_used t = false -> refunded t = true ->
     exec s i = Err (Custom AlreadyRefunded)) /\
  (owner t = co -> is_used t = false -> refunded t = false ->
     exists s', exec s i = Ok s' /\
       data (s' tk) = TicketData (mkTicket no (event t) (ticket_id t) false false) /\
       (forall k, k <> tk -> s' k = s k) /\
       (forall k, lamports (s' k) = lamports (s k))) /\
  (forall err, exec s i = Err err -> data (step s i tk) = TicketData t).
Proof.
  intros i.
  split; [|split; [|split; [|split]]];
    [| | | | intros err Herr; rewrite (step_err _ _ _ Herr); exact Ht];
    subst i; cbn [exec]; unfold transfer_ticket, load_ticket, signer, require;
    rewrite Ht, Hsig; cbn [bind].
  - intros Hne; rewrite key_eqb_false by exact Hne; reflexivity.
  - intros -> Hu; rewrite key_eqb_refl, Hu; reflexivity.
  - intros -> Hu Hr; rewrite key_eqb_refl, Hu, Hr; reflexivity.
  - intros -> Hu Hr; rewrite key_eqb_refl, Hu, Hr; cbn.
    eexists; split; [reflexivity|]; split; [|split].
    + rewrite data_set_data; destruct (key_eq_dec tk tk); [|congruence].
      unfold set_owner; rewrite Hu, Hr; reflexivity.
    + intros k Hk; unfold set_data, upd; destruct (key_eq_dec k tk); congruence.
    + intros k; apply lamports_set_data.
Qed.

(** ** cancel_event *)

(** C10: [cancel_event] on an already canceled event, signed by its
    authority, succeeds (there is no "already canceled" error) and leaves
    the event and every other account exactly as they were. *)
Theorem cancel_event_idempotent (s : State) (ek ak : Key) (e : Event)
    (Hev : data (s ek) = EventData e) (Hc : canceled e = true)
    (Hauth : event_authority e = ak) (Hsig : is_signer ak = true) :
  exists s', exec s (ICancelEvent ek ak) = Ok s' /\ (forall k, s' k = s k).
Proof.
  cbn [exec]; unfold cancel_event, load_event, signer, require.
  rewrite Hev, Hsig; cbn [bind]; rewrite Hauth, key_eqb_refl; cbn [bind].
  eexists; split; [reflexivity|].
  apply set_data_same; rewrite Hev; f_equal.
  destruct e; cbn in *; subst; reflexivity.
Qed.

(** ** check_in and the irreversibility of [is_used] *)

(** C9: once a ticket is checked in it stays checked in after any further
    sequence of transactions, and a second [check_in] by the event authority
    fails with [AlreadyCheckedIn] and changes nothing. *)
Theorem is_used_irreversible (s : State) (tk : Key) (t : Ticket)
    (Hk : data (s tk) = TicketData t) (Hu : is_used t = true) :
  (forall is, exists t', data (run s is tk) = TicketData t' /\ is_used t' = true) /\
  (forall ek ak e, data (s ek) = EventData e -> event t = ek ->
     event_authority e = ak -> is_signer ak = true ->
     exec s (ICheckIn ek tk ak) = Err (Custom AlreadyCheckedIn) /\
     step s (ICheckIn ek tk ak) = s).
Proof.
  split.
  - intros is; revert s t Hk Hu; induction is as [|i is IH]; intros s t Hk Hu.
    + exists t; auto.
    + cbn [run fold_left].
      destruct (step_keeps_used s i tk t Hk Hu) as (t' & Ht' & Hu').
      exact (IH _ _ Ht' Hu').
  - intros ek ak e Hev Het Hauth Hsig.
    assert (Hx : exec s (ICheckIn ek tk ak) = Err (Custom AlreadyCheckedIn)).
    { cbn [exec]; unfold check_in, load_event, load_ticket, signer, require.
      rewrite Hev, Hk, Hsig; cbn [bind].
      rewrite Het, key_eqb_refl; cbn [bind]; rewrite <- Hauth, key_eqb_refl, Hu.
      reflexivity. }
    split; [exact Hx | exact (step_err _ _ _ Hx)].
Qed.

(** * The invariant of reachable ledgers *)

Lemma inv_nodata s : Inv s -> forall k, is_data_key k = false -> data (s k) = NoData.
Proof.
  intros Hinv k Hk; pose proof (inv_fits _ Hinv k) as F.
  destruct (data (s k)), k; cbn in *; congruence.
Qed.

Lemma count_ext s s' ek n :
  (forall i, (i < n)%nat -> unrefunded_at s ek i = unrefunded_at s' ek i) ->
  unrefunded_count s ek n = unrefunded_count s' ek n.
Proof.
  intros H; unfold unrefunded_count; f_equal; apply filter_ext_in.
  intros a Ha; apply in_seq in Ha; apply H; lia.
Qed.

Lemma count_S s ek n :
  unrefunded_count s ek (S n) =
    (unrefunded_count s ek n + if unrefunded_at s ek n then 1 else 0)%nat.
Proof.
  unfold unrefunded_count; rewrite seq_S, filter_app, length_app; cbn.
  destruct (unrefunded_at s ek n); reflexivity.
Qed.

Lemma count_flip s s' ek n j :
  (j < n)%nat -> unrefunded_at s ek j = true -> unrefunded_at s' ek j = false ->
  (forall i, (i < n)%nat -> i <> j -> unrefunded_at s ek i = unrefunded_at s' ek i) ->
  unrefunded_count s ek n = S (unrefunded_count s' ek n).
Proof.
  induction n as [|n IH]; intros Hj H1 H2 H; [lia|].
  rewrite !count_S.
  destruct (Nat.eq_dec j n) as [->|Hne].
  - rewrite H1, H2, (count_ext s s' ek n); [lia|].
    intros i Hi; apply H; lia.
  - rewrite (IH ltac:(lia) H1 H2) by (intros i Hi Hij; apply H; lia).
    rewrite (H n) by lia; lia.
Qed.

(** A change of one account that keeps its refund status keeps every count. *)
Lemma count_single_change s s' ek n k0 :
  (forall k, k <> k0 -> data (s' k) = data (s k)) ->
  unrefunded_data (data (s' k0)) = unrefunded_data (data (s k0)) ->
  unrefunded_count s' ek n = unrefunded_count s ek n.
Proof.
  intros Hd H0; apply count_ext; intros i _; unfold unrefunded_at.
  destruct (key_eq_dec (KTicket ek (Z.of_nat i)) k0) as [->|Hne]; auto.
  rewrite Hd; auto.
Qed.

Lemma count_zero s ek : unrefunded_count s ek 0 = 0%nat.
Proof. reflexivity. Qed.

Lemma inv_genesis bal : Inv (genesis bal).
Proof.
  constructor; cbn; try discriminate; intros; auto; lia.
Qed.

Lemma signer_not_vault k ek : is_signer k = true -> k <> KVault ek.
Proof. intros H ->; discriminate. Qed.

(** Changing one ticket without touching its event, id and refund status. *)
Section TicketUpdate.
Variables (s s' : State) (tk : Key) (t t' : Ticket).
Hypothesis Hinv : Inv s.
Hypothesis Ht : data (s tk) = TicketData t.
Hypothesis Hev : event t' = event t.
Hypothesis Hid : ticket_id t' = ticket_id t.
Hypothesis Hd : forall k, data (s' k) =
  if key_eq_dec k tk then TicketData t' else data (s k).

Lemma ticket_update_event : forall k e, data (s' k) = EventData e ->
  0 <= sold e <= supply e /\ supply e < 2 ^ 32 /\ 0 <= price e.
Proof.
  intros k e H; rewrite Hd in H; destruct (key_eq_dec k tk); [discriminate|].
  eapply inv_event; eauto.
Qed.

Lemma ticket_update_ticket : forall k u, data (s' k) = TicketData u ->
  k = KTicket (event u) (ticket_id u) /\
  exists e, data (s' (event u)) = EventData e /\ 0 <= ticket_id u < sold e.
Proof.
  intros k u H; rewrite Hd in H; destruct (key_eq_dec k tk) as [->|Hne].
  - injection H as <-.
    destruct (inv_ticket _ Hinv _ _ Ht) as (Hk & e & He & Hi).
    rewrite Hev, Hid; split; [exact Hk|]; exists e; rewrite Hd.
    destruct (key_eq_dec (event t) tk) as [Heq|]; [rewrite Heq in He; congruence|].
    auto.
  - destruct (inv_ticket _ Hinv _ _ H) as (Hk & e & He & Hi).
    split; [exact Hk|]; exists e; rewrite Hd.
    destruct (key_eq_dec (event u) tk) as [Heq|]; [rewrite Heq in He; congruence|].
    auto.
Qed.

Lemma ticket_update_fits : forall k, data_fits k (data (s' k)) = true.
Proof.
  intros k; rewrite Hd; destruct (key_eq_dec k tk) as [->|]; [|apply (inv_fits _ Hinv)].
  pose proof (inv_fits _ Hinv tk) as F; rewrite Ht in F; exact F.
Qed.
End TicketUpdate.

Lemma inv_ticket_update s s' tk t t' :
  Inv s -> data (s tk) = TicketData t ->
  event t' = event t -> ticket_id t' = ticket_id t -> refunded t' = refunded t ->
  (forall k, data (s' k) = if key_eq_dec k tk then TicketData t' else data (s k)) ->
  (forall k, lamports (s' k) = lamports (s k)) ->
  Inv s'.
Proof.
  intros Hinv Ht He Hi Hr Hd Hl; constructor.
  - eapply ticket_update_event; eauto.
  - eapply ticket_update_ticket; eauto.
  - eapply ticket_update_fits; eauto.
  - intros ek; rewrite Hl; apply (inv_vault_nonneg _ Hinv).
  - intros ek e H; rewrite Hd in H; destruct (key_eq_dec ek tk); [discriminate|].
    rewrite Hl, (count_single_change s s' ek _ tk).
    + eapply inv_vault; eauto.
    + intros k Hk; rewrite Hd; destruct (key_eq_dec k tk); congruence.
    + rewrite Hd, Ht; destruct (key_eq_dec tk tk); [|congruence]; cbn; rewrite Hr; reflexivity.
Qed.

Lemma inv_cancel s ek ak s' : Inv s -> cancel_event s ek ak = Ok s' -> Inv s'.
Proof.
  intros Hinv Hx; apply cancel_event_ok in Hx as (e & Hev & _ & _ & Hd & Hl).
  constructor.
  - intros k e' H; rewrite Hd in H; destruct (key_eq_dec k ek) as [->|].
    + injection H as <-; cbn; eapply inv_event; eauto.
    + eapply inv_event; eauto.
  - intros k u H; rewrite Hd in H; destruct (key_eq_dec k ek); [discriminate|].
    destruct (inv_ticket _ Hinv _ _ H) as (Hk & e0 & He0 & Hi).
    split; [exact Hk|]; rewrite Hd.
    destruct (key_eq_dec (event u) ek) as [Heq|].
    + rewrite Heq, Hev in He0; injection He0 as <-.
      eexists; split; [reflexivity|]; cbn; exact Hi.
    + eauto.
  - intros k; rewrite Hd; destruct (key_eq_dec k ek) as [->|]; [|apply (inv_fits _ Hinv)].
    pose proof (inv_fits _ Hinv ek) as F; rewrite Hev in F; exact F.
  - intros k; rewrite Hl; apply (inv_vault_nonneg _ Hinv).
  - intros ek' e' H.
    rewrite Hl, (count_single_change s s' ek' _ ek).
    + rewrite Hd in H; destruct (key_eq_dec ek' ek) as [->|].
      * injection H as <-; cbn; eapply inv_vault; eauto.
      * eapply inv_vault; eauto.
    + intros k Hk; rewrite Hd; destruct (key_eq_dec k ek); congruence.
    + rewrite Hd, Hev; destruct (key_eq_dec ek ek); [|congruence]; reflexivity.
Qed.

Lemma inv_register s r o now s' : Inv s -> register_organizer s r o now = Ok s' -> Inv s'.
Proof.
  intros Hinv Hx; apply register_organizer_ok in Hx as (Hsig & Hr & Hfree & Hd & Hl).
  assert (Hv : forall x, lamports (s' (KVault x)) = lamports (s (KVault x))).
  { intros x; rewrite Hl.
    destruct (key_eq_dec (KVault x) o) as [E|]; [rewrite <- E in Hsig; discriminate|].
    destruct (key_eq_dec (KVault x) r) as [E|]; [rewrite Hr in E; discriminate|]; lia. }
  constructor.
  - intros k e H; rewrite Hd in H; destruct (key_eq_dec k r); [discriminate|].
    eapply inv_event; eauto.
  - intros k u H; rewrite Hd in H; destruct (key_eq_dec k r); [discriminate|].
    destruct (inv_ticket _ Hinv _ _ H) as (Hk & e0 & He0 & Hi).
    split; [exact Hk|]; rewrite Hd.
    destruct (key_eq_dec (event u) r) as [Heq|]; [rewrite Heq in He0; congruence|eauto].
  - intros k; rewrite Hd; destruct (key_eq_dec k r) as [->|];
      [subst; reflexivity|apply (inv_fits _ Hinv)].
  - intros k; rewrite Hv; apply (inv_vault_nonneg _ Hinv).
  - intros ek e H; rewrite Hd in H; destruct (key_eq_dec ek r); [discriminate|].
    rewrite Hv, (count_single_change s s' ek _ r).
    + eapply inv_vault; eauto.
    + intros k Hk; rewrite Hd; destruct (key_eq_dec k r); congruence.
    + rewrite Hd, Hfree; destruct (key_eq_dec r r); [|congruence]; reflexivity.
Qed.

Lemma inv_initialize s ek ak eid p sup nm dt s' :
  Inv s -> instr_wf (IInitializeEvent ek ak eid p sup nm dt) ->
  initialize_event s ek ak eid p sup nm dt = Ok s' -> Inv s'.
Proof.
  intros Hinv (_ & Hp & Hsup) Hx.
  apply initialize_event_ok in Hx as (Hsig & Hek & Hfree & _ & _ & Hd & Hl).
  assert (Hv : forall x, lamports (s' (KVault x)) = lamports (s (KVault x))).
  { intros x; rewrite Hl.
    destruct (key_eq_dec (KVault x) ak) as [E|]; [rewrite <- E in Hsig; discriminate|].
    destruct (key_eq_dec (KVault x) ek) as [E|]; [rewrite Hek in E; discriminate|]; lia. }
  unfold u32_range, u64_range in *.
  constructor.
  - intros k e H; rewrite Hd in H; destruct (key_eq_dec k ek).
    + injection H as <-; cbn; lia.
    + eapply inv_event; eauto.
  - intros k u H; rewrite Hd in H; destruct (key_eq_dec k ek); [discriminate|].
    destruct (inv_ticket _ Hinv _ _ H) as (Hk & e0 & He0 & Hi).
    split; [exact Hk|]; rewrite Hd.
    destruct (key_eq_dec (event u) ek) as [Heq|]; [rewrite Heq in He0; congruence|eauto].
  - intros k; rewrite Hd; destruct (key_eq_dec k ek) as [->|];
      [subst; reflexivity|apply (inv_fits _ Hinv)].
  - intros k; rewrite Hv; apply (inv_vault_nonneg _ Hinv).
  - intros ek' e H; rewrite Hd in H; destruct (key_eq_dec ek' ek) as [->|].
    + injection H as <-; cbn; rewrite Hv; pose proof (inv_vault_nonneg _ Hinv ek); lia.
    + rewrite Hv, (count_single_change s s' ek' _ ek).
      * eapply inv_vault; eauto.
      * intros k Hk; rewrite Hd; destruct (key_eq_dec k ek); congruence.
      * rewrite Hd, Hfree; destruct (key_eq_dec ek ek); [|congruence]; reflexivity.
Qed.

Lemma inv_system_transfer s f t a s' :
  Inv s -> u64_range a ->
  (let* _ := signer f in system_transfer s f t a) = Ok s' -> Inv s'.
Proof.
  intros Hinv Ha Hx; unfold u64_range in Ha.
  apply system_transfer_ix_ok in Hx as (Hf & _ & _ & Hd & Hl).
  assert (Hv : forall ek, lamports (s (KVault ek)) <= lamports (s' (KVault ek))).
  { intros ek; rewrite Hl.
    destruct (key_eq_dec (KVault ek) f) as [Heq|]; [rewrite <- Heq in Hf; discriminate|].
    destruct (key_eq_dec (KVault ek) t); lia. }
  constructor.
  - intros k e H; rewrite Hd in H; eapply inv_event; eauto.
  - intros k u H; rewrite Hd in H; rewrite Hd; eapply inv_ticket; eauto.
  - intros k; rewrite Hd; apply (inv_fits _ Hinv).
  - intros k; specialize (Hv k); pose proof (inv_vault_nonneg _ Hinv k); lia.
  - intros ek e H; rewrite Hd in H; specialize (Hv ek).
    rewrite (count_ext s' s ek _ (fun i _ => ltac:(unfold unrefunded_at; rewrite Hd; reflexivity))).
    pose proof (inv_vault _ Hinv _ _ H); lia.
Qed.

Lemma inv_mint s ek tk vk b s' : Inv s -> mint_ticket s ek tk vk b = Ok s' -> Inv s'.
Proof.
  intros Hinv Hx.
  apply mint_ticket_ok in Hx
    as (e & Hev & Hsig & Htk & Hfree & Hvk & _ & Hlt & _ & _ & Hd & Hl).
  destruct (inv_event _ Hinv _ _ Hev) as (Hs & Hsup & Hp).
  assert (Hadd : u32_add (sold e) 1 = sold e + 1)
    by (unfold u32_add; apply Z.mod_small; lia).
  rewrite Hadd in Hd.
  assert (Hne : ek <> tk) by (intros ->; congruence).
  assert (Hbv : forall x, KVault x <> b)
    by (intros x Heq; apply (signer_not_vault b x Hsig); auto).
  assert (Hlv : forall x, lamports (s' (KVault x)) =
            lamports (s (KVault x)) + (if key_eq_dec (KVault x) vk then price e else 0)).
  { intros x; rewrite Hl.
    destruct (key_eq_dec (KVault x) b) as [Heq|]; [exfalso; eapply Hbv; eauto|].
    destruct (key_eq_dec (KVault x) tk) as [Heq|]; [rewrite Htk in Heq; discriminate|].
    lia. }
  assert (Hsame : forall k, k <> tk ->
            unrefunded_data (data (s' k)) = unrefunded_data (data (s k))).
  { intros k Hk; rewrite Hd; destruct (key_eq_dec k ek) as [->|];
      [rewrite Hev; reflexivity|destruct (key_eq_dec k tk); [congruence|reflexivity]]. }
  constructor.
  - intros k e' H; rewrite Hd in H; destruct (key_eq_dec k ek).
    + injection H as <-; cbn; lia.
    + destruct (key_eq_dec k tk); [discriminate|]; eapply inv_event; eauto.
  - intros k u H; rewrite Hd in H; destruct (key_eq_dec k ek); [discriminate|].
    destruct (key_eq_dec k tk) as [->|Hktk].
    + injection H as <-; cbn; split; [exact Htk|].
      rewrite Hd; destruct (key_eq_dec ek ek); [|congruence].
      eexists; split; [reflexivity|]; cbn; lia.
    + destruct (inv_ticket _ Hinv _ _ H) as (Hk & e0 & He0 & Hi).
      split; [exact Hk|]; rewrite Hd.
      destruct (key_eq_dec (event u) ek) as [Heq|].
      * rewrite Heq, Hev in He0; injection He0 as <-.
        eexists; split; [reflexivity|]; cbn; lia.
      * destruct (key_eq_dec (event u) tk) as [Heq|];
          [rewrite Heq in He0; congruence|eauto].
  - intros k; rewrite Hd; destruct (key_eq_dec k ek) as [->|].
    + pose proof (inv_fits _ Hinv ek) as F; rewrite Hev in F; exact F.
    + destruct (key_eq_dec k tk) as [->|]; [subst; reflexivity|apply (inv_fits _ Hinv)].
  - intros x; rewrite Hlv; pose proof (inv_vault_nonneg _ Hinv x).
    destruct (key_eq_dec (KVault x) b) as [Heq|]; [exfalso; eapply Hbv; eauto|].
    destruct (key_eq_dec (KVault x) vk); lia.
  - intros ek' e' H; rewrite Hd in H.
    destruct (key_eq_dec ek' ek) as [->|Hek].
    + injection H as <-; cbn.
      replace (Z.to_nat (sold e + 1)) with (S (Z.to_nat (sold e))) by lia.
      rewrite count_S.
      assert (Hnew : unrefunded_at s' ek (Z.to_nat (sold e)) = true).
      { unfold unrefunded_at; rewrite Z2Nat.id by lia; rewrite <- Htk, Hd.
        destruct (key_eq_dec tk ek); [congruence|].
        destruct (key_eq_dec tk tk); [reflexivity|congruence]. }
      rewrite Hnew.
      rewrite (count_ext s' s ek (Z.to_nat (sold e))).
      * pose proof (inv_vault _ Hinv _ _ Hev) as Hv.
        rewrite Hlv; subst vk.
        destruct (key_eq_dec (KVault ek) b) as [Heq|]; [exfalso; eapply Hbv; eauto|].
        destruct (key_eq_dec (KVault ek) (KVault ek)); [|congruence].
        rewrite Nat2Z.inj_add; cbn [Z.of_nat Pos.of_succ_nat]; nia.
      * intros i Hi; unfold unrefunded_at; apply Hsame.
        rewrite Htk; intros Heq; injection Heq; lia.
    + destruct (key_eq_dec ek' tk); [discriminate|].
      rewrite (count_ext s' s ek' _).
      * rewrite Hlv; subst vk.
        destruct (key_eq_dec (KVault ek') b) as [Heq|]; [exfalso; eapply Hbv; eauto|].
        destruct (key_eq_dec (KVault ek') (KVault ek)) as [Heq|];
          [injection Heq; congruence|].
        pose proof (inv_vault _ Hinv _ _ H); lia.
      * intros i _; unfold unrefunded_at; apply Hsame.
        rewrite Htk; intros Heq; injection Heq; congruence.
Qed.

Lemma inv_refund s ek tk vk o ak s' : Inv s -> refund s ek tk vk o ak = Ok s' -> Inv s'.
Proof.
  intros Hinv Hx.
  apply refund_ok in Hx
    as (e & t & Hev & Ht & _ & _ & Hte & Hvk & _ & Hr & _ & Hp & Hd & Hl).
  destruct (inv_ticket _ Hinv _ _ Ht) as (Htk & e0 & He0 & Hi).
  rewrite Hte, Hev in He0; injection He0 as <-.
  rewrite Hte in Htk.
  destruct (inv_event _ Hinv _ _ Hev) as (_ & _ & Hpr).
  assert (Hsame : forall k, k <> tk ->
            unrefunded_data (data (s' k)) = unrefunded_data (data (s k))).
  { intros k Hk; rewrite Hd; destruct (key_eq_dec k tk); [congruence|reflexivity]. }
  constructor.
  - eapply (ticket_update_event s s' tk (set_refunded t true)); eauto.
  - apply (ticket_update_ticket s s' tk t (set_refunded t true)); auto.
  - eapply (ticket_update_fits s s' tk t (set_refunded t true)); eauto.
  - intros x; rewrite Hl; pose proof (inv_vault_nonneg _ Hinv x).
    destruct (key_eq_dec (KVault x) vk) as [Heq|];
      destruct (key_eq_dec (KVault x) o); try rewrite Heq in *; lia.
  - intros ek' e' H; rewrite Hd in H.
    destruct (key_eq_dec ek' tk); [discriminate|].
    destruct (key_eq_dec ek' ek) as [->|Hek].
    + rewrite Hev in H; injection H as <-.
      pose proof (inv_vault _ Hinv _ _ Hev) as Hv.
      rewrite (count_flip s s' ek (Z.to_nat (sold e)) (Z.to_nat (ticket_id t))) in Hv.
      * rewrite Hl; subst vk.
        destruct (key_eq_dec (KVault ek) (KVault ek)); [|congruence].
        destruct (key_eq_dec (KVault ek) o); rewrite Nat2Z.inj_succ in Hv; nia.
      * lia.
      * unfold unrefunded_at; rewrite Z2Nat.id by lia; rewrite <- Htk, Ht; cbn.
        rewrite Hr; reflexivity.
      * unfold unrefunded_at; rewrite Z2Nat.id by lia; rewrite <- Htk, Hd.
        destruct (key_eq_dec tk tk); [reflexivity|congruence].
      * intros i _ Hij; unfold unrefunded_at; symmetry; apply Hsame.
        rewrite Htk; intros Heq; injection Heq; lia.
    + rewrite (count_ext s' s ek' _).
      * rewrite Hl; subst vk.
        destruct (key_eq_dec (KVault ek') (KVault ek)) as [Heq|];
          [injection Heq; congruence|].
        pose proof (inv_vault _ Hinv _ _ H).
        destruct (key_eq_dec (KVault ek') o); lia.
      * intros i _; unfold unrefunded_at; apply Hsame.
        rewrite Htk; intros Heq; injection Heq; congruence.
Qed.

Lemma inv_step s i : Inv s -> instr_wf i -> Inv (step s i).
Proof.
  intros Hinv Hwf; unfold step; destruct (exec s i) as [s'|] eqn:Hx; [|exact Hinv].
  destruct i; cbn [exec] in Hx.
  - eapply inv_register; eauto.
  - eapply inv_initialize; eauto.
  - eapply inv_mint; eauto.
  - apply transfer_ticket_ok in Hx as (t & Ht & _ & _ & _ & _ & Hd & Hl).
    refine (inv_ticket_update s s' _ t _ Hinv Ht _ _ _ Hd Hl); reflexivity.
  - apply check_in_ok in Hx as (e & t & _ & Ht & _ & _ & _ & _ & _ & Hd & Hl).
    refine (inv_ticket_update s s' _ t _ Hinv Ht _ _ _ Hd Hl); reflexivity.
  - eapply inv_refund; eauto.
  - eapply inv_cancel; eauto.
  - eapply inv_system_transfer; eauto.
Qed.

Lemma reachable_inv s : reachable s -> Inv s.
Proof.
  induction 1; [apply inv_genesis|apply inv_step; auto].
Qed.

Lemma reachable_run s is : reachable s -> Forall instr_wf is -> reachable (run s is).
Proof.
  intros Hr Hwf; revert s Hr; induction Hwf as [|i is Hi _ IH]; intros s Hr; [exact Hr|].
  cbn [run fold_left]; apply IH; constructor; auto.
Qed.

(** The next ticket address of an event is always free. *)
Lemma inv_ticket_slot_free s ek e :
  Inv s -> data (s ek) = EventData e -> data (s (KTicket ek (sold e))) = NoData.
Proof.
  intros Hinv Hev.
  pose proof (inv_fits _ Hinv (KTicket ek (sold e))) as F.
  destruct (data (s (KTicket ek (sold e)))) as [|e'|t|o] eqn:D; try discriminate; auto.
  destruct (inv_ticket _ Hinv _ _ D) as (Hk & e0 & He0 & Hi).
  injection Hk as Hek Hid; rewrite <- Hek, Hev in He0; injection He0 as <-; lia.
Qed.

Lemma signer_nodata s k : Inv s -> is_signer k = true -> data (s k) = NoData.
Proof. intros Hinv Hk; apply (inv_nodata _ Hinv); destruct k; easy. Qed.

(** ** Records stay rent-exempt *)

Lemma exec_rent_exempt s i s' :
  Inv s -> rent_exempt s -> instr_wf i -> exec s i = Ok s' -> rent_exempt s'.
Proof.
  intros Hinv Hre Hwf Hx k Hk.
  destruct i; cbn [exec] in Hx.
  - apply register_organizer_ok in Hx as (Hsig & -> & Hfree & Hd & Hl).
    pose proof (signer_nodata _ _ Hinv Hsig) as Hon.
    set (o := organizer_key) in *.
    pose proof (rent_due_covers (lamports (s (KOrganizer o))) OrganizerRegistry_SPACE).
    rewrite Hd in Hk |- *; rewrite Hl.
    destruct (key_eq_dec k (KOrganizer o)) as [->|Hne].
    + destruct (key_eq_dec (KOrganizer o) o) as [Heq|]; [rewrite <- Heq in Hsig; discriminate|].
      cbn [space_of]; lia.
    + destruct (key_eq_dec k o) as [->|]; [congruence|].
      pose proof (Hre k Hk); lia.
  - apply initialize_event_ok in Hx as (Hsig & -> & Hfree & _ & _ & Hd & Hl).
    pose proof (signer_nodata _ _ Hinv Hsig) as Han.
    pose proof (rent_due_covers (lamports (s (KEvent event_authority_key event_id_arg)))
                  (Event_space MAX_NAME_LEN MAX_DATE_LEN)).
    rewrite Hd in Hk |- *; rewrite Hl.
    destruct (key_eq_dec k (KEvent event_authority_key event_id_arg)) as [->|Hne].
    + destruct (key_eq_dec (KEvent event_authority_key event_id_arg) event_authority_key) as [Heq|];
        [rewrite <- Heq in Hsig; discriminate|].
      cbn [space_of]; lia.
    + destruct (key_eq_dec k event_authority_key) as [->|]; [congruence|].
      pose proof (Hre k Hk); lia.
  - apply mint_ticket_ok in Hx
      as (e & Hev & Hsig & Htk & Hfree & Hvk & _ & _ & Hbn & _ & Hd & Hl).
    pose proof (inv_nodata _ Hinv vault_key ltac:(subst vault_key; reflexivity)) as Hvn.
    destruct (inv_event _ Hinv _ _ Hev) as (_ & _ & Hp).
    pose proof (rent_due_covers (lamports (s ticket_key)) Ticket_SPACE).
    pose proof (rent_due_nonneg (lamports (s ticket_key)) Ticket_SPACE).
    pose proof (Hre event_key ltac:(congruence)) as Hek; rewrite Hev in Hek.
    rewrite Hd in Hk |- *; rewrite Hl.
    destruct (key_eq_dec k event_key) as [->|Hne1].
    + destruct (key_eq_dec event_key buyer); [congruence|].
      destruct (key_eq_dec event_key vault_key); [congruence|].
      destruct (key_eq_dec event_key ticket_key); [congruence|].
      cbn [space_of] in Hek |- *; lia.
    + destruct (key_eq_dec k ticket_key) as [->|Hne2].
      * destruct (key_eq_dec ticket_key buyer) as [Heq|];
          [rewrite <- Heq, Htk in Hsig; discriminate|].
        destruct (key_eq_dec ticket_key vault_key); [congruence|].
        cbn [space_of]; lia.
      * destruct (key_eq_dec k buyer) as [->|]; [congruence|].
        pose proof (Hre k Hk).
        destruct (key_eq_dec k vault_key); lia.
  - apply transfer_ticket_ok in Hx as (t & Ht & _ & _ & _ & _ & Hd & Hl).
    pose proof (Hre ticket_key ltac:(congruence)) as Htk; rewrite Ht in Htk.
    rewrite Hd in Hk |- *; rewrite Hl.
    destruct (key_eq_dec k ticket_key) as [->|]; [exact Htk | exact (Hre k Hk)].
  - apply check_in_ok in Hx as (e & t & _ & Ht & _ & _ & _ & _ & _ & Hd & Hl).
    pose proof (Hre ticket_key ltac:(congruence)) as Htk; rewrite Ht in Htk.
    rewrite Hd in Hk |- *; rewrite Hl.
    destruct (key_eq_dec k ticket_key) as [->|]; [exact Htk | exact (Hre k Hk)].
  - apply refund_ok in Hx as (e & t & Hev & Ht & _ & _ & _ & Hvk & _ & _ & Hvn & _ & Hd & Hl).
    destruct (inv_event _ Hinv _ _ Hev) as (_ & _ & Hp).
    pose proof (Hre ticket_key ltac:(congruence)) as Htk; rewrite Ht in Htk.
    rewrite Hd in Hk |- *; rewrite Hl.
    destruct (key_eq_dec k ticket_key) as [->|].
    + destruct (key_eq_dec ticket_key vault_key); [congruence|].
      destruct (key_eq_dec ticket_key ticket_owner); cbn [space_of] in Htk |- *; lia.
    + destruct (key_eq_dec k vault_key) as [->|]; [congruence|].
      pose proof (Hre k Hk); destruct (key_eq_dec k ticket_owner); lia.
  - apply cancel_event_ok in Hx as (e & Hev & _ & _ & Hd & Hl).
    pose proof (Hre event_key ltac:(congruence)) as Hek; rewrite Hev in Hek.
    rewrite Hd in Hk |- *; rewrite Hl.
    destruct (key_eq_dec k event_key) as [->|]; [exact Hek | exact (Hre k Hk)].
  - apply system_transfer_ix_ok in Hx as (_ & Hfn & Ha & Hd & Hl).
    rewrite Hd in Hk |- *; rewrite Hl.
    destruct (key_eq_dec k from) as [->|]; [congruence|].
    pose proof (Hre k Hk); destruct (key_eq_dec k to); [|lia].
    unfold instr_wf, u64_range in Hwf; lia.
Qed.

Lemma reachable_rent_exempt s : reachable s -> rent_exempt s.
Proof.
  induction 1 as [bal|s i Hr IH Hwf].
  - intros k Hk; destruct Hk; reflexivity.
  - unfold step; destruct (exec s i) as [s'|err] eqn:Hx; [|exact IH].
    exact (exec_rent_exempt s i s' (reachable_inv _ Hr) IH Hwf Hx).
Qed.

(** Unfold a mint whose accounts are the derived ones, up to the handler. *)
Lemma mint_ticket_unfold s ek b e :
  data (s ek) = EventData e -> is_signer b = true ->
  mint_ticket s ek (KTicket ek (sold e)) (KVault ek) b =
    let* s0 := init_at s (KTicket ek (sold e)) (KTicket ek (sold e)) b Ticket_SPACE in
    let* _ := require (negb (canceled e)) (Custom EventCanceled) in
    let* _ := require (sold e <? supply e) (Custom EventSoldOut) in
    let* s1 := system_transfer s0 b (KVault ek) (price e) in
    Ok (set_data (set_data s1 (KTicket ek (sold e))
                   (TicketData (mkTicket b ek (sold e) false false)))
                 ek (EventData (set_sold e (u32_add (sold e) 1)))).
Proof.
  intros Hev Hsig.
  unfold mint_ticket, load_event, signer; rewrite Hev; unfold require at 1; rewrite Hsig.
  cbn [bind].
  destruct (init_at s (KTicket ek (sold e)) (KTicket ek (sold e)) b Ticket_SPACE);
    cbn [bind]; [|reflexivity].
  rewrite key_eqb_refl; reflexivity.
Qed.

(** The first steps of a mint on a reachable ledger with the derived
    accounts: the buyer pays the rent of the ticket account. *)
Lemma mint_ticket_init s ek b e :
  Inv s -> data (s ek) = EventData e -> is_signer b = true ->
  let tk := KTicket ek (sold e) in
  let rent := rent_due (lamports (s tk)) Ticket_SPACE in
  (0 < rent -> lamports (s b) < rent -> exec s (IMintTicket ek tk (KVault ek) b) = Err InsufficientFunds) /\
  ((0 < rent -> rent <= lamports (s b)) ->
     exists s0, exec s (IMintTicket ek tk (KVault ek) b) =
       (let* _ := require (negb (canceled e)) (Custom EventCanceled) in
        let* _ := require (sold e <? supply e) (Custom EventSoldOut) in
        let* s1 := system_transfer s0 b (KVault ek) (price e) in
        Ok (set_data (set_data s1 tk (TicketData (mkTicket b ek (sold e) false false)))
              ek (EventData (set_sold e (u32_add (sold e) 1))))) /\
       data (s0 b) = NoData /\ lamports (s0 b) = lamports (s b) - rent).
Proof.
  intros Hinv Hev Hsig tk rent; subst tk rent.
  assert (Hx : exec s (IMintTicket ek (KTicket ek (sold e)) (KVault ek) b) =
               mint_ticket s ek (KTicket ek (sold e)) (KVault ek) b) by reflexivity.
  rewrite (mint_ticket_unfold _ _ _ _ Hev Hsig) in Hx; rewrite Hx; clear Hx.
  assert (Hbt : b <> KTicket ek (sold e)) by (intros ->; discriminate).
  destruct (init_at_pay s (KTicket ek (sold e)) b Ticket_SPACE
              (inv_ticket_slot_free _ _ _ Hinv Hev) (signer_nodata _ _ Hinv Hsig) Hbt)
    as [Hfail Hpay].
  split.
  - intros Hpos Hlt; rewrite (Hfail Hpos Hlt); reflexivity.
  - intros Hle; destruct (Hpay Hle) as (s0 & Hs0 & Hd & Hl).
    exists s0; rewrite Hs0; cbn [bind]; split; [reflexivity|].
    rewrite Hd, Hl, (signer_nodata _ _ Hinv Hsig).
    destruct (key_eq_dec b b); [|congruence].
    destruct (key_eq_dec b (KTicket ek (sold e))); [congruence|].
    split; [reflexivity|lia].
Qed.

(** ** mint_ticket *)

(** C3: on a reachable ledger, a mint by a signing buyer with the derived
    ticket and vault addresses first has the buyer pay the rent still due
    on the new ticket account, and fails with the system program's
    [InsufficientFunds] when that rent is due and the buyer holds less.
    When the buyer can pay it, the mint fails with [EventCanceled] when the
    event is canceled and with [EventSoldOut] when it is not canceled but
    [sold = supply].  Every one of these failures rolls the transaction
    back, so [sold] and the tickets are unchanged. *)
Theorem mint_ticket_rejects (s : State) (Hr : reachable s) (ek b : Key) (e : Event)
    (Hev : data (s ek) = EventData e) (Hsig : is_signer b = true) :
  let tk := KTicket ek (sold e) in
  let i := IMintTicket ek tk (KVault ek) b in
  let rent := rent_due (lamports (s tk)) Ticket_SPACE in
  (0 < rent -> lamports (s b) < rent -> exec s i = Err InsufficientFunds /\ step s i = s) /\
  (rent <= lamports (s b) -> canceled e = true ->
     exec s i = Err (Custom EventCanceled) /\ step s i = s) /\
  (rent <= lamports (s b) -> canceled e = false -> sold e = supply e ->
     exec s i = Err (Custom EventSoldOut) /\ step s i = s).
Proof.
  intros tk i rent; subst tk i rent; pose proof (reachable_inv _ Hr) as Hinv.
  destruct (mint_ticket_init s ek b e Hinv Hev Hsig) as [Hfail Hpay]; cbv zeta in Hfail, Hpay.
  split; [|split].
  - intros Hpos Hlt; pose proof (Hfail Hpos Hlt) as Hx.
    split; [exact Hx | exact (step_err _ _ _ Hx)].
  - intros Hle Hc; destruct (Hpay (fun _ => Hle)) as (s0 & Hx & _).
    rewrite Hc in Hx; cbn [negb require bind] in Hx.
    split; [exact Hx | exact (step_err _ _ _ Hx)].
  - intros Hle Hc Hs; destruct (Hpay (fun _ => Hle)) as (s0 & Hx & _).
    replace (sold e <? supply e) with false in Hx by (rewrite Hs; symmetry; apply Z.ltb_irrefl).
    rewrite Hc in Hx; cbn [negb require bind] in Hx.
    split; [exact Hx | exact (step_err _ _ _ Hx)].
Qed.

(** C3 (the spec's reading fails): the rent of the ticket account comes
    before the canceled and sold-out checks.  In scenario C the event is
    canceled and the buyer [B] holds 5000 lamports, enough for the price
    of 1000 but not for the rent of a ticket account: the mint fails with
    [InsufficientFunds], not [EventCanceled]. *)
Lemma mint_ticket_rent_before_checks :
  data (ScenarioC.s ScenarioC.EV) = EventData ScenarioC.ev /\
  canceled ScenarioC.ev = true /\
  price ScenarioC.ev <= lamports (ScenarioC.s ScenarioC.B) /\
  lamports (ScenarioC.s ScenarioC.B) < rent_due (lamports (ScenarioC.s (KTicket ScenarioC.EV 0))) Ticket_SPACE /\
  exec ScenarioC.s (IMintTicket ScenarioC.EV (KTicket ScenarioC.EV 0)
                      (KVault ScenarioC.EV) ScenarioC.B) = Err InsufficientFunds.
Proof.
  split; [vm_compute; reflexivity|]; split; [reflexivity|].
  split; [vm_compute; discriminate|]; split; [vm_compute; reflexivity|].
  vm_compute; reflexivity.
Qed.

(** C2: on a reachable ledger, a mint on an event that is not canceled and
    not sold out, with the derived ticket and vault addresses, either
    - succeeds, moving exactly [price] lamports from the buyer to the vault,
      the buyer also paying the rent still due on the new ticket account
      to that account, creating the ticket [{owner = buyer, event,
      ticket_id = sold, is_used = false, refunded = false}] at the next
      ticket address and incrementing [sold] by one, touching no other
      record and no other balance; or
    - when the buyer cannot pay the price and the rent, fails and the
      transaction leaves the ledger unchanged. *)
Theorem mint_ticket_effect (s : State) (Hr : reachable s) (ek b : Key) (e : Event)
    (Hev : data (s ek) = EventData e) (Hsig : is_signer b = true)
    (Hc : canceled e = false) (Hlt : sold e < supply e) :
  let tk := KTicket ek (sold e) in
  let vk := KVault ek in
  let i := IMintTicket ek tk vk b in
  let rent := rent_due (lamports (s tk)) Ticket_SPACE in
  (price e + rent <= lamports (s b) ->
     exists s', exec s i = Ok s' /\ step s i = s' /\
       lamports (s' b) = lamports (s b) - price e - rent /\
       lamports (s' vk) = lamports (s vk) + price e /\
       lamports (s' tk) = lamports (s tk) + rent /\
       (forall k, k <> b -> k <> vk -> k <> tk -> lamports (s' k) = lamports (s k)) /\
       data (s' tk) = TicketData (mkTicket b ek (sold e) false false) /\
       data (s' ek) = EventData (set_sold e (sold e + 1)) /\
       (forall k, k <> tk -> k <> ek -> data (s' k) = data (s k))) /\
  (lamports (s b) < price e + rent -> exec s i = Err InsufficientFunds /\ step s i = s).
Proof.
  intros tk vk i rent; subst tk vk i rent; pose proof (reachable_inv _ Hr) as Hinv.
  destruct (inv_event _ Hinv _ _ Hev) as (Hs & Hsup & Hp).
  pose proof (rent_due_nonneg (lamports (s (KTicket ek (sold e)))) Ticket_SPACE) as Hrn.
  destruct (mint_ticket_init s ek b e Hinv Hev Hsig) as [Hfail Hpay]; cbv zeta in Hfail, Hpay.
  set (tk := KTicket ek (sold e)) in *; set (vk := KVault ek) in *.
  set (rent := rent_due (lamports (s tk)) Ticket_SPACE) in *.
  set (i := IMintTicket ek tk vk b).
  assert (Hbv : b <> vk) by (apply signer_not_vault; exact Hsig).
  assert (Hbt : b <> tk) by (intros Heq; rewrite Heq in Hsig; discriminate).
  assert (Hvt : vk <> tk) by discriminate.
  assert (Hne : ek <> tk).
  { intros Heq; pose proof (inv_ticket_slot_free _ _ _ Hinv Hev) as F.
    fold tk in F; rewrite <- Heq in F; congruence. }
  split.
  - intros Hpay'.
    destruct (Hpay ltac:(intros; lia)) as (s0 & Hx & Hd0 & Hl0).
    rewrite Hc in Hx; apply Z.ltb_lt in Hlt; rewrite Hlt in Hx.
    cbn [negb require bind] in Hx.
    unfold system_transfer, require in Hx; rewrite Hd0 in Hx; cbn [bind] in Hx.
    assert (Hle : price e <= lamports (s0 b)) by lia.
    apply Z.leb_le in Hle; rewrite Hle in Hx; cbn [bind] in Hx.
    fold i in Hx; pose proof Hx as Hm.
    change (exec s i) with (mint_ticket s ek tk vk b) in Hm.
    eexists; split; [exact Hx|]; split; [unfold step; rewrite Hx; reflexivity|].
    apply mint_ticket_ok in Hm
      as (e0 & Hev0 & _ & _ & _ & _ & _ & _ & _ & _ & Hd & Hl).
    rewrite Hev in Hev0; injection Hev0 as <-.
    apply Z.ltb_lt in Hlt.
    assert (Hadd : u32_add (sold e) 1 = sold e + 1)
      by (unfold u32_add; apply Z.mod_small; lia).
    fold tk rent in Hd, Hl.
    rewrite !Hl, !Hd, Hadd.
    split; [|split; [|split; [|split; [|split; [|split]]]]].
    + destruct (key_eq_dec b b); [|congruence].
      destruct (key_eq_dec b vk); [congruence|]; destruct (key_eq_dec b tk); [congruence|lia].
    + destruct (key_eq_dec vk b); [congruence|].
      destruct (key_eq_dec vk vk); [|congruence]; destruct (key_eq_dec vk tk); [congruence|lia].
    + destruct (key_eq_dec tk b); [congruence|].
      destruct (key_eq_dec tk vk); [congruence|]; destruct (key_eq_dec tk tk); [lia|congruence].
    + intros k Hkb Hkv Hkt; rewrite <- Hadd, Hl.
      destruct (key_eq_dec k b); [congruence|]; destruct (key_eq_dec k vk); [congruence|].
      destruct (key_eq_dec k tk); [congruence|lia].
    + destruct (key_eq_dec tk ek); [congruence|].
      destruct (key_eq_dec tk tk); [reflexivity|congruence].
    + destruct (key_eq_dec ek ek); [reflexivity|congruence].
    + intros k Hkt Hke; rewrite <- Hadd, Hd.
      destruct (key_eq_dec k ek); [congruence|]; destruct (key_eq_dec k tk); [congruence|reflexivity].
  - intros Hpoor.
    assert (Hx : exec s i = Err InsufficientFunds).
    { destruct (Z_lt_le_dec 0 rent) as [Hpos|Hz];
        [destruct (Z_lt_le_dec (lamports (s b)) rent) as [Hlow|Hhigh]|].
      - exact (Hfail Hpos Hlow).
      - destruct (Hpay (fun _ => Hhigh)) as (s0 & Hx & Hd0 & Hl0).
        rewrite Hc in Hx; apply Z.ltb_lt in Hlt; rewrite Hlt in Hx.
        cbn [negb require bind] in Hx; unfold system_transfer, require in Hx.
        rewrite Hd0 in Hx; cbn [bind] in Hx.
        assert (Hgt : lamports (s0 b) < price e) by lia.
        apply Z.leb_gt in Hgt; rewrite Hgt in Hx; exact Hx.
      - destruct (Hpay ltac:(intros; lia)) as (s0 & Hx & Hd0 & Hl0).
        rewrite Hc in Hx; apply Z.ltb_lt in Hlt; rewrite Hlt in Hx.
        cbn [negb require bind] in Hx; unfold system_transfer, require in Hx.
        rewrite Hd0 in Hx; cbn [bind] in Hx.
        assert (Hgt : lamports (s0 b) < price e) by lia.
        apply Z.leb_gt in Hgt; rewrite Hgt in Hx; exact Hx. }
    split; [exact Hx|exact (step_err s i _ Hx)].
Qed.

(** How one transaction can change an event record. *)
Lemma event_step s i k e e' :
  Inv s -> data (s k) = EventData e -> data (step s i k) = EventData e' ->
  supply e' = supply e /\
  (sold e' = sold e \/
   ((exists tk vk b, i = IMintTicket k tk vk b) /\ sold e < supply e /\
    sold e' = sold e + 1)).
Proof.
  intros Hinv Hk H; unfold step in H.
  destruct (exec s i) as [s'|] eqn:Hx; [|rewrite Hk in H; injection H as <-; auto].
  assert (Same : data (s k) = EventData e' ->
                 supply e' = supply e /\ (sold e' = sold e \/
                   ((exists tk vk b, i = IMintTicket k tk vk b) /\ sold e < supply e /\
                    sold e' = sold e + 1)))
    by (intros H'; rewrite Hk in H'; injection H' as <-; auto).
  destruct i; cbn [exec] in Hx.
  - apply register_organizer_ok in Hx as (_ & _ & Hfree & Hd & _).
    rewrite Hd in H; destruct (key_eq_dec k organizer_registry); [discriminate|auto].
  - apply initialize_event_ok in Hx as (_ & _ & Hfree & _ & _ & Hd & _).
    rewrite Hd in H; destruct (key_eq_dec k event_key) as [->|]; [congruence|auto].
  - apply mint_ticket_ok in Hx
      as (e0 & Hev & _ & Htk & Hfree & _ & _ & Hlt & _ & _ & Hd & _).
    rewrite Hd in H; destruct (key_eq_dec k event_key) as [->|].
    + rewrite Hev in Hk; injection Hk as <-; injection H as <-; cbn.
      destruct (inv_event _ Hinv _ _ Hev) as (Hs & Hsup & _).
      split; [reflexivity|right]; split; [eauto|split; [lia|]].
      unfold u32_add; apply Z.mod_small; lia.
    + destruct (key_eq_dec k ticket_key); [discriminate|auto].
  - apply transfer_ticket_ok in Hx as (t & Ht & _ & _ & _ & _ & Hd & _).
    rewrite Hd in H; destruct (key_eq_dec k ticket_key); [discriminate|auto].
  - apply check_in_ok in Hx as (e0 & t & _ & Ht & _ & _ & _ & _ & _ & Hd & _).
    rewrite Hd in H; destruct (key_eq_dec k ticket_key); [discriminate|auto].
  - apply refund_ok in Hx as (e0 & t & _ & Ht & _ & _ & _ & _ & _ & _ & _ & _ & Hd & _).
    rewrite Hd in H; destruct (key_eq_dec k ticket_key); [discriminate|auto].
  - apply cancel_event_ok in Hx as (e0 & Hev & _ & _ & Hd & _).
    rewrite Hd in H; destruct (key_eq_dec k event_key) as [->|]; [|auto].
    rewrite Hev in Hk; injection Hk as <-; injection H as <-; cbn; auto.
  - apply system_transfer_ix_ok in Hx as (_ & _ & _ & Hd & _).
    rewrite Hd in H; auto.
Qed.

(** ** The supply bound *)

(** C4: in every reachable ledger every event satisfies
    [0 <= sold <= supply]; [initialize_event] creates events with
    [sold = 0]; and a transaction leaves [supply] unchanged and changes
    [sold] only by a mint on that event, which needs [sold < supply] and
    adds exactly one. *)
Theorem sold_within_supply (s : State) (Hr : reachable s) :
  (forall k e, data (s k) = EventData e -> 0 <= sold e <= supply e) /\
  (forall ek ak eid p sup nm dt s',
     initialize_event s ek ak eid p sup nm dt = Ok s' ->
     exists e, data (s' ek) = EventData e /\ sold e = 0 /\ supply e = sup) /\
  (forall i k e e', data (s k) = EventData e -> data (step s i k) = EventData e' ->
     supply e' = supply e /\
     (sold e' = sold e \/
      ((exists tk vk b, i = IMintTicket k tk vk b) /\ sold e < supply e /\
       sold e' = sold e + 1))).
Proof.
  pose proof (reachable_inv _ Hr) as Hinv.
  split; [|split].
  - intros k e H; apply (inv_event _ Hinv _ _ H).
  - intros ek ak eid p sup nm dt s' Hx.
    apply initialize_event_ok in Hx as (_ & _ & _ & _ & _ & Hd & _).
    eexists; rewrite Hd; destruct (key_eq_dec ek ek); [|congruence].
    split; [reflexivity|split; reflexivity].
  - intros i k e e'; apply event_step; exact Hinv.
Qed.

(** ** Ticket ids *)

Lemma sold_of_exec_nonmint s i s' k :
  exec s i = Ok s' -> (forall tk vk b, i <> IMintTicket k tk vk b) ->
  sold_of s' k = sold_of s k.
Proof.
  intros Hx Hnm; unfold sold_of.
  destruct i; cbn [exec] in Hx.
  - apply register_organizer_ok in Hx as (_ & _ & Hfree & Hd & _).
    rewrite Hd; destruct (key_eq_dec k organizer_registry) as [->|]; [rewrite Hfree|]; reflexivity.
  - apply initialize_event_ok in Hx as (_ & _ & Hfree & _ & _ & Hd & _).
    rewrite Hd; destruct (key_eq_dec k event_key) as [->|]; [rewrite Hfree|]; reflexivity.
  - apply mint_ticket_ok in Hx
      as (e0 & Hev & _ & Htk & Hfree & _ & _ & Hlt & _ & _ & Hd & _).
    rewrite Hd; destruct (key_eq_dec k event_key) as [->|].
    + exfalso; eapply Hnm; reflexivity.
    + destruct (key_eq_dec k ticket_key) as [->|]; [rewrite Hfree|]; reflexivity.
  - apply transfer_ticket_ok in Hx as (t & Ht & _ & _ & _ & _ & Hd & _).
    rewrite Hd; destruct (key_eq_dec k ticket_key) as [->|]; [rewrite Ht|]; reflexivity.
  - apply check_in_ok in Hx as (e0 & t & _ & Ht & _ & _ & _ & _ & _ & Hd & _).
    rewrite Hd; destruct (key_eq_dec k ticket_key) as [->|]; [rewrite Ht|]; reflexivity.
  - apply refund_ok in Hx as (e0 & t & _ & Ht & _ & _ & _ & _ & _ & _ & _ & _ & Hd & _).
    rewrite Hd; destruct (key_eq_dec k ticket_key) as [->|]; [rewrite Ht|]; reflexivity.
  - apply cancel_event_ok in Hx as (e0 & Hev & _ & _ & Hd & _).
    rewrite Hd; destruct (key_eq_dec k event_key) as [->|]; [rewrite Hev|]; reflexivity.
  - apply system_transfer_ix_ok in Hx as (_ & _ & _ & Hd & _).
    rewrite Hd; reflexivity.
Qed.

Lemma mint_sold_of s ek tk vk b s' :
  Inv s -> mint_ticket s ek tk vk b = Ok s' ->
  minted s (IMintTicket ek tk vk b) = [(ek, sold_of s ek)] /\
  sold_of s' ek = sold_of s ek + 1 /\
  (forall k, k <> ek -> sold_of s' k = sold_of s k).
Proof.
  intros Hinv Hx.
  assert (Hm : minted s (IMintTicket ek tk vk b) =
               match data (s' tk) with TicketData t => [(ek, ticket_id t)] | _ => [] end)
    by (unfold minted; cbn [exec]; rewrite Hx; reflexivity).
  apply mint_ticket_ok in Hx
    as (e & Hev & _ & Htk & Hfree & _ & _ & Hlt & _ & _ & Hd & _).
  destruct (inv_event _ Hinv _ _ Hev) as (Hs & Hsup & _).
  assert (Hne : tk <> ek) by (intros ->; congruence).
  unfold sold_of; rewrite Hm, !Hd, Hev.
  destruct (key_eq_dec tk ek); [congruence|]; destruct (key_eq_dec tk tk); [|congruence].
  destruct (key_eq_dec ek ek); [|congruence]; cbn.
  split; [reflexivity|split].
  - unfold u32_add; apply Z.mod_small; lia.
  - intros k Hk; rewrite Hd; destruct (key_eq_dec k ek); [congruence|].
    destruct (key_eq_dec k tk) as [->|]; [rewrite Hfree|]; reflexivity.
Qed.

Lemma minted_err s i e : exec s i = Err e -> minted s i = [].
Proof. intros Hx; destruct i; unfold minted; try reflexivity; rewrite Hx; reflexivity. Qed.

Lemma minted_nonmint s i : (forall ek tk vk b, i <> IMintTicket ek tk vk b) -> minted s i = [].
Proof. intros H; destruct i; try reflexivity; exfalso; eapply H; reflexivity. Qed.

Lemma ids_of_app ek l1 l2 : ids_of ek (l1 ++ l2) = ids_of ek l1 ++ ids_of ek l2.
Proof. unfold ids_of; rewrite filter_app, map_app; reflexivity. Qed.

Lemma sold_of_nonneg s k : Inv s -> 0 <= sold_of s k.
Proof.
  intros Hinv; unfold sold_of; destruct (data (s k)) eqn:D; try lia.
  destruct (inv_event _ Hinv _ _ D); lia.
Qed.

Lemma log_ok_step s i log : Inv s -> log_ok s log -> log_ok (step s i) (log ++ minted s i).
Proof.
  intros Hinv Hlog ek; unfold step.
  destruct (exec s i) as [s'|err] eqn:Hx.
  2: { rewrite (minted_err _ _ _ Hx), app_nil_r; apply Hlog. }
  destruct i;
    try (rewrite minted_nonmint by (intros; discriminate); rewrite app_nil_r;
         rewrite (sold_of_exec_nonmint _ _ _ _ Hx) by (intros; discriminate);
         apply Hlog).
  pose proof Hx as Hx'; cbn [exec] in Hx'.
  destruct (mint_sold_of _ _ _ _ _ _ Hinv Hx') as (Hm & Hs & Ho).
  rewrite Hm, ids_of_app, Hlog; unfold ids_of; cbn [filter fst].
  destruct (key_eq_dec event_key ek) as [->|Hne].
  - rewrite key_eqb_refl; cbn [map snd].
    pose proof (sold_of_nonneg s ek Hinv).
    rewrite Hs; replace (Z.to_nat (sold_of s ek + 1)) with (S (Z.to_nat (sold_of s ek))) by lia.
    rewrite seq_S, map_app; cbn [map Nat.add]; rewrite Z2Nat.id by lia; reflexivity.
  - rewrite key_eqb_false by exact Hne; cbn [map]; rewrite app_nil_r.
    rewrite Ho by congruence; reflexivity.
Qed.

Lemma log_ok_run is s log :
  Inv s -> Forall instr_wf is -> log_ok s log ->
  Inv (run s is) /\ log_ok (run s is) (log ++ mint_log s is).
Proof.
  revert s log; induction is as [|i is IH]; intros s log Hinv Hwf Hlog.
  - cbn; rewrite app_nil_r; auto.
  - inversion Hwf as [|? ? Hi Hwf']; subst.
    cbn [run fold_left mint_log]; rewrite app_assoc.
    apply (IH (step s i)); [apply inv_step; auto|exact Hwf'|apply log_ok_step; auto].
Qed.

Lemma sold_of_step_mono s i k : Inv s -> sold_of s k <= sold_of (step s i) k.
Proof.
  intros Hinv; unfold step; destruct (exec s i) as [s'|] eqn:Hx; [|lia].
  destruct i;
    try (rewrite (sold_of_exec_nonmint _ _ _ _ Hx) by (intros; discriminate); lia).
  cbn [exec] in Hx; destruct (mint_sold_of _ _ _ _ _ _ Hinv Hx) as (_ & Hs & Ho).
  destruct (key_eq_dec k event_key) as [->|]; [lia|rewrite Ho by auto; lia].
Qed.

(** C5: along any sequence of transactions from a genesis ledger, the ids
    of the tickets minted for an event are exactly [0, 1, ..., sold - 1] in
    mint order (so the i-th successful mint creates id i and no id is used
    twice); every ticket's id is below its event's supply; [sold] never
    decreases, so a consumed slot is never freed; and a refund leaves
    [sold] unchanged. *)
Theorem ticket_ids_in_mint_order (bal : nat -> Z) (txs : list Instr)
    (Hwf : Forall instr_wf txs) :
  let s := run (genesis bal) txs in
  (forall ek, ids_of ek (mint_log (genesis bal) txs) =
              map Z.of_nat (seq 0 (Z.to_nat (sold_of s ek)))) /\
  (forall k t, data (s k) = TicketData t ->
     exists e, data (s (event t)) = EventData e /\ 0 <= ticket_id t < supply e) /\
  (forall i k, sold_of s k <= sold_of (step s i) k) /\
  (forall ek tk vk o ak k, sold_of (step s (IRefund ek tk vk o ak)) k = sold_of s k).
Proof.
  intros s.
  destruct (log_ok_run txs (genesis bal) [] (inv_genesis bal) Hwf
              (fun ek => eq_refl)) as (Hinv & Hlog).
  fold s in Hinv, Hlog.
  split; [exact Hlog|split; [|split]].
  - intros k t Ht; destruct (inv_ticket _ Hinv _ _ Ht) as (_ & e & He & Hi).
    destruct (inv_event _ Hinv _ _ He).
    exists e; split; [exact He|lia].
  - intros i k; apply sold_of_step_mono; exact Hinv.
  - intros ek tk vk o ak k; unfold step.
    destruct (exec s (IRefund ek tk vk o ak)) eqn:Hx; [|reflexivity].
    apply (sold_of_exec_nonmint _ _ _ _ Hx); intros; discriminate.
Qed.

(** ** Operations on the tickets of a canceled event *)

Lemma count_pos s ek n j :
  (j < n)%nat -> unrefunded_at s ek j = true -> (1 <= unrefunded_count s ek n)%nat.
Proof.
  induction n as [|n IH]; intros Hj H; [lia|].
  rewrite count_S; destruct (Nat.eq_dec j n) as [->|]; [rewrite H; lia|].
  specialize (IH ltac:(lia) H); lia.
Qed.

(** The vault of an event always covers the refund of any of its
    unrefunded tickets. *)
Lemma vault_covers_refund s ek tk e t :
  Inv s -> data (s ek) = EventData e -> data (s tk) = TicketData t ->
  event t = ek -> refunded t = false -> price e <= lamports (s (KVault ek)).
Proof.
  intros Hinv Hev Ht Hte Hrf.
  destruct (inv_ticket _ Hinv _ _ Ht) as (Htk & e0 & He0 & Hi).
  rewrite Hte, Hev in He0; injection He0 as <-.
  destruct (inv_event _ Hinv _ _ Hev) as (_ & _ & Hp).
  pose proof (inv_vault _ Hinv _ _ Hev) as Hv.
  assert (Hc : (1 <= unrefunded_count s ek (Z.to_nat (sold e)))%nat).
  { apply (count_pos _ _ _ (Z.to_nat (ticket_id t))); [lia|].
    unfold unrefunded_at; rewrite Z2Nat.id by lia; rewrite <- Hte, <- Htk, Ht; cbn.
    rewrite Hrf; reflexivity. }
  nia.
Qed.

(** C6: canceling an event blocks only minting.  In a reachable ledger, for
    a canceled event and one of its tickets that is neither used nor
    refunded, [check_in] by the event authority, [transfer_ticket] by the
    ticket owner (to anyone) and [refund] by the event authority (to any
    recipient account) all succeed. *)
Theorem canceled_event_keeps_ticket_ops (s : State) (Hr : reachable s)
    (ek tk : Key) (e : Event) (t : Ticket)
    (Hev : data (s ek) = EventData e) (Hc : canceled e = true)
    (Ht : data (s tk) = TicketData t) (Hte : event t = ek)
    (Hu : is_used t = false) (Hrf : refunded t = false) :
  (forall ak, ak = event_authority e -> is_signer ak = true ->
     exists s', exec s (ICheckIn ek tk ak) = Ok s') /\
  (forall co no, co = owner t -> is_signer co = true ->
     exists s', exec s (ITransferTicket tk co no) = Ok s') /\
  (forall ak o, ak = event_authority e -> is_signer ak = true ->
     exists s', exec s (IRefund ek tk (KVault ek) o ak) = Ok s').
Proof.
  pose proof (reachable_inv _ Hr) as Hinv.
  split; [|split].
  - intros ak -> Hsig; cbn [exec].
    unfold check_in, load_event, load_ticket, signer, require.
    rewrite Hev, Ht, Hsig; cbn [bind].
    rewrite Hte, !key_eqb_refl, Hu, Hrf; cbn; eexists; reflexivity.
  - intros co no -> Hsig; cbn [exec].
    unfold transfer_ticket, load_ticket, signer, require.
    rewrite Ht, Hsig; cbn [bind].
    rewrite key_eqb_refl, Hu, Hrf; cbn; eexists; reflexivity.
  - intros ak o -> Hsig; cbn [exec].
    pose proof (vault_covers_refund _ _ _ _ _ Hinv Hev Ht Hte Hrf) as Hp.
    apply Z.leb_le in Hp.
    unfold refund, load_event, load_ticket, signer, require, system_transfer.
    rewrite Hev, Ht, Hsig; cbn [bind].
    rewrite Hte, !key_eqb_refl, Hu, Hrf; cbn [negb bind].
    rewrite (inv_nodata _ Hinv (KVault ek) eq_refl), Hp; cbn; eexists; reflexivity.
Qed.

(** ** initialize_event *)

(** The first step of [initialize_event] at the derived event address: the
    authority pays the rent still due on the new event account. *)
Lemma initialize_event_init s ak eid p sup nm dt :
  Inv s -> is_signer ak = true -> data (s (KEvent ak eid)) = NoData ->
  let ek := KEvent ak eid in
  let rent := rent_due (lamports (s ek)) (Event_space MAX_NAME_LEN MAX_DATE_LEN) in
  let i := IInitializeEvent ek ak eid p sup nm dt in
  (0 < rent -> lamports (s ak) < rent -> exec s i = Err InsufficientFunds) /\
  ((0 < rent -> rent <= lamports (s ak)) ->
     exists s1, exec s i =
       (let* _ := require (Nat.leb (String.length nm) MAX_NAME_LEN) (Custom NameTooLong) in
        let* _ := require (Nat.leb (String.length dt) MAX_DATE_LEN) (Custom DateTooLong) in
        Ok (set_data s1 ek (EventData (mkEvent ak p sup 0 false eid nm dt)))) /\
       (forall k, data (s1 k) = data (s k)) /\
       (forall k, lamports (s1 k) =
          lamports (s k) - (if key_eq_dec k ak then rent else 0)
                         + (if key_eq_dec k ek then rent else 0))).
Proof.
  intros Hinv Hsig Hfree ek rent i; subst ek rent i.
  assert (Hak : ak <> KEvent ak eid) by (intros Heq; rewrite Heq in Hsig; discriminate).
  destruct (init_at_pay s (KEvent ak eid) ak (Event_space MAX_NAME_LEN MAX_DATE_LEN)
              Hfree (signer_nodata _ _ Hinv Hsig) Hak) as [Hfail Hpay].
  assert (Hx : exec s (IInitializeEvent (KEvent ak eid) ak eid p sup nm dt) =
    let* s1 := init_at s (KEvent ak eid) (KEvent ak eid) ak
                 (Event_space MAX_NAME_LEN MAX_DATE_LEN) in
    let* _ := require (Nat.leb (String.length nm) MAX_NAME_LEN) (Custom NameTooLong) in
    let* _ := require (Nat.leb (String.length dt) MAX_DATE_LEN) (Custom DateTooLong) in
    Ok (set_data s1 (KEvent ak eid) (EventData (mkEvent ak p sup 0 false eid nm dt)))).
  { cbn [exec]; unfold initialize_event, signer; unfold require at 1; rewrite Hsig.
    reflexivity. }
  rewrite Hx; split.
  - intros Hpos Hlt; rewrite (Hfail Hpos Hlt); reflexivity.
  - intros Hle; destruct (Hpay Hle) as (s1 & Hs1 & Hd & Hl).
    exists s1; rewrite Hs1; cbn [bind]; auto.
Qed.

(** C8 (as the code reads it): on a reachable ledger, with the event
    address derived from the signing authority and [event_id] and still
    free, [initialize_event] first has the authority pay the rent still due
    on the new event account ([Event::space(50, 30)] = 149 bytes, its
    rent-exempt minimum less what the address already holds); when that rent
    is due and the authority holds less, it fails with [InsufficientFunds].
    Otherwise it fails with [NameTooLong] when [name] is longer than
    [MAX_NAME_LEN] bytes, else with [DateTooLong] when [date] is longer than
    [MAX_DATE_LEN] bytes; every failure changes nothing.  Otherwise it
    creates the event with [sold = 0], [canceled = false] and the other
    fields verbatim from the arguments, moves the rent from the authority to
    the event account and changes no other account. *)
Theorem initialize_event_spec (s : State) (Hr : reachable s) (ak : Key) (eid p sup : Z)
    (nm dt : string)
    (Hsig : is_signer ak = true) (Hfree : data (s (KEvent ak eid)) = NoData) :
  let ek := KEvent ak eid in
  let i := IInitializeEvent ek ak eid p sup nm dt in
  let rent := rent_due (lamports (s ek)) (Event_space MAX_NAME_LEN MAX_DATE_LEN) in
  (0 < rent -> lamports (s ak) < rent -> exec s i = Err InsufficientFunds /\ step s i = s) /\
  (rent <= lamports (s ak) -> (MAX_NAME_LEN < String.length nm)%nat ->
     exec s i = Err (Custom NameTooLong) /\ step s i = s) /\
  (rent <= lamports (s ak) ->
   (String.length nm <= MAX_NAME_LEN)%nat -> (MAX_DATE_LEN < String.length dt)%nat ->
     exec s i = Err (Custom DateTooLong) /\ step s i = s) /\
  (rent <= lamports (s ak) ->
   (String.length nm <= MAX_NAME_LEN)%nat -> (String.length dt <= MAX_DATE_LEN)%nat ->
     exists s', exec s i = Ok s' /\ step s i = s' /\
       data (s' ek) = EventData (mkEvent ak p sup 0 false eid nm dt) /\
       lamports (s' ek) = lamports (s ek) + rent /\
       lamports (s' ak) = lamports (s ak) - rent /\
       data (s' ak) = data (s ak) /\
       (forall k, k <> ek -> k <> ak -> s' k = s k)).
Proof.
  intros ek i rent; pose proof (reachable_inv _ Hr) as Hinv.
  destruct (initialize_event_init s ak eid p sup nm dt Hinv Hsig Hfree) as [Hfail Hpay].
  fold ek rent i in Hfail, Hpay.
  assert (Hak : ak <> ek) by (intros Heq; subst ek; rewrite Heq in Hsig; discriminate).
  split; [|split; [|split]].
  - intros Hpos Hlt; pose proof (Hfail Hpos Hlt) as Hx.
    split; [exact Hx | exact (step_err _ _ _ Hx)].
  - intros Hle Hn; destruct (Hpay (fun _ => Hle)) as (s1 & Hx & _).
    apply Nat.leb_gt in Hn; rewrite Hn in Hx; cbn [require bind] in Hx.
    split; [exact Hx | exact (step_err _ _ _ Hx)].
  - intros Hle Hn Hd; destruct (Hpay (fun _ => Hle)) as (s1 & Hx & _).
    apply Nat.leb_le in Hn; apply Nat.leb_gt in Hd.
    rewrite Hn, Hd in Hx; cbn [require bind] in Hx.
    split; [exact Hx | exact (step_err _ _ _ Hx)].
  - intros Hle Hn Hd; destruct (Hpay (fun _ => Hle)) as (s1 & Hx & Hd1 & Hl1).
    apply Nat.leb_le in Hn; apply Nat.leb_le in Hd.
    rewrite Hn, Hd in Hx; cbn [require bind] in Hx.
    eexists; split; [exact Hx|]; split; [unfold step; rewrite Hx; reflexivity|].
    rewrite !data_set_data, !lamports_set_data, !Hl1, !Hd1.
    destruct (key_eq_dec ek ek); [|congruence].
    destruct (key_eq_dec ek ak); [congruence|].
    destruct (key_eq_dec ak ak); [|congruence].
    destruct (key_eq_dec ak ek); [congruence|].
    split; [reflexivity|]; split; [lia|]; split; [lia|]; split; [reflexivity|].
    intros k Hke Hka.
    assert (Hl := lamports_set_data s1 ek (EventData (mkEvent ak p sup 0 false eid nm dt)) k).
    assert (Hdd := data_set_data s1 ek (EventData (mkEvent ak p sup 0 false eid nm dt)) k).
    rewrite Hl1 in Hl; rewrite Hd1 in Hdd.
    destruct (key_eq_dec k ak); [congruence|]; destruct (key_eq_dec k ek); [congruence|].
    apply account_ext; [rewrite Hl; lia | exact Hdd].
Qed.

(** C8 (the spec's reading fails):
    - the limits are on bytes, not characters: a name of 26 characters,
      each two bytes in UTF-8, is within 50 characters, yet
      [initialize_event] rejects it with [NameTooLong];
    - the rent of the event account comes before the limits: in scenario C,
      the wallet [B] holds 5000 lamports, less than the rent of an event
      account, and its [initialize_event] with a 60-byte name fails with
      [InsufficientFunds], not [NameTooLong]. *)
Lemma initialize_event_limits_counterexample :
  let nm := str_repeat 26 e_acute in
  (utf8_char_count nm <= MAX_NAME_LEN)%nat /\
  (MAX_NAME_LEN < String.length nm)%nat /\
  exec ScenarioA.s0
    (IInitializeEvent ScenarioA.EV ScenarioA.O 1 1000 2 nm "2025-01-01")
  = Err (Custom NameTooLong) /\
  (MAX_NAME_LEN < String.length (str_repeat 60 "a"))%nat /\
  lamports (ScenarioC.s0 ScenarioC.B) = 5000 /\
  exec ScenarioC.s0
    (IInitializeEvent (KEvent ScenarioC.B 1) ScenarioC.B 1 1000 2
       (str_repeat 60 "a") "2025-01-01")
  = Err InsufficientFunds.
Proof.
  intros nm; split; [|split; [|split; [|split; [|split]]]].
  - apply Nat.leb_le; vm_compute; reflexivity.
  - apply Nat.leb_gt; vm_compute; reflexivity.
  - vm_compute; reflexivity.
  - apply Nat.leb_gt; vm_compute; reflexivity.
  - reflexivity.
  - vm_compute; reflexivity.
Qed.

(** ** refund *)

(** C1 (code behaviour): [refund] pays whatever account is passed as
    [ticket_owner].  In scenario A, ticket 0 belongs to [B]; the event
    authority refunds it naming the unrelated wallet [KUser 7] as
    [ticket_owner]: the refund succeeds, [KUser 7] receives the price and
    [B], the ticket's owner, receives nothing. *)
Theorem refund_pays_passed_account :
  let s := ScenarioA.s3 in
  let tk := KTicket ScenarioA.EV 0 in
  let X := KUser 7 in
  let s' := step s (IRefund ScenarioA.EV tk (KVault ScenarioA.EV) X ScenarioA.O) in
  option_map owner (ticket_at s tk) = Some ScenarioA.B /\ ScenarioA.B <> X /\
  option_map price (event_at s ScenarioA.EV) = Some 1000 /\
  option_map refunded (ticket_at s tk) = Some false /\
  option_map refunded (ticket_at s' tk) = Some true /\
  lamports (s' X) = lamports (s X) + 1000 /\
  lamports (s' ScenarioA.B) = lamports (s ScenarioA.B) /\
  lamports (s' (KVault ScenarioA.EV)) = lamports (s (KVault ScenarioA.EV)) - 1000.
Proof.
  intros s tk X s'.
  split; [vm_compute; reflexivity|]; split; [cbv; discriminate|].
  repeat split; vm_compute; reflexivity.
Qed.

(** * Concrete instances of the claims *)

Lemma scenarioA_s1_reachable : reachable ScenarioA.s1.
Proof.
  apply reachable_run; [constructor|].
  constructor; [cbn; unfold u32_range, u64_range; lia | constructor].
Qed.

Lemma scenarioA_s3_reachable : reachable ScenarioA.s3.
Proof.
  apply reachable_run; [exact scenarioA_s1_reachable | repeat constructor].
Qed.

Lemma scenarioB_wf : Forall instr_wf ScenarioB.txs.
Proof.
  constructor; [cbn; unfold u32_range, u64_range; lia | repeat constructor].
Qed.

Lemma scenarioB_reachable : reachable ScenarioB.s.
Proof. apply reachable_run; [constructor | exact scenarioB_wf]. Qed.

Lemma scenarioB_event : data (ScenarioB.s ScenarioB.EV) = EventData ScenarioB.ev.
Proof. vm_compute; reflexivity. Qed.

Lemma scenarioB_ticket0 : data (ScenarioB.s ScenarioB.T0) = TicketData ScenarioB.t0.
Proof. vm_compute; reflexivity. Qed.

Lemma scenarioB_ticket1 : data (ScenarioB.s ScenarioB.T1) = TicketData ScenarioB.t1.
Proof. vm_compute; reflexivity. Qed.

Lemma scenarioA_event1 : data (ScenarioA.s1 ScenarioA.EV) = EventData ScenarioA.ev1.
Proof. vm_compute; reflexivity. Qed.

Lemma scenarioA_event3 : data (ScenarioA.s3 ScenarioA.EV) = EventData ScenarioA.ev3.
Proof. vm_compute; reflexivity. Qed.

Lemma scenarioC_reachable : reachable ScenarioC.s.
Proof.
  apply reachable_run; [constructor|].
  constructor; [cbn; unfold u32_range, u64_range; lia | repeat constructor].
Qed.

Lemma scenarioC_event : data (ScenarioC.s ScenarioC.EV) = EventData ScenarioC.ev.
Proof. vm_compute; reflexivity. Qed.

(** C2 at scenario A: the first mint puts the price in the vault, creates
    ticket 0 for [B], and costs [B] the price and the 1433760 lamports of
    rent of the 78-byte ticket account. *)
Lemma mint_ticket_effect_witness :
  exists s', exec ScenarioA.s1
               (IMintTicket ScenarioA.EV (KTicket ScenarioA.EV 0)
                  (KVault ScenarioA.EV) ScenarioA.B) = Ok s' /\
    lamports (s' (KVault ScenarioA.EV)) = 1000 /\
    lamports (s' ScenarioA.B) = lamports (ScenarioA.s1 ScenarioA.B) - 1434760 /\
    data (s' (KTicket ScenarioA.EV 0)) =
      TicketData (mkTicket ScenarioA.B ScenarioA.EV 0 false false).
Proof.
  destruct (mint_ticket_effect ScenarioA.s1 scenarioA_s1_reachable ScenarioA.EV
              ScenarioA.B ScenarioA.ev1 scenarioA_event1 eq_refl eq_refl
              ltac:(vm_compute; reflexivity)) as [Hok _].
  destruct (Hok ltac:(vm_compute; discriminate)) as (s' & Hx & _ & Hb & Hv & _ & _ & Ht & _).
  exists s'; split; [exact Hx|]; split; [rewrite Hv; vm_compute; reflexivity|].
  split; [rewrite Hb; vm_compute; reflexivity | exact Ht].
Defined.

(** C3 at scenario A: after two mints the event is sold out. *)
Lemma mint_ticket_rejects_witness :
  exec ScenarioA.s3 (IMintTicket ScenarioA.EV (KTicket ScenarioA.EV 2)
                       (KVault ScenarioA.EV) ScenarioA.B)
  = Err (Custom EventSoldOut).
Proof.
  destruct (mint_ticket_rejects ScenarioA.s3 scenarioA_s3_reachable ScenarioA.EV
              ScenarioA.B ScenarioA.ev3 scenarioA_event3 eq_refl) as (_ & _ & H).
  exact (proj1 (H ltac:(vm_compute; discriminate) eq_refl eq_refl)).
Defined.

(** C4 at scenario A. *)
Lemma sold_within_supply_witness :
  0 <= sold ScenarioA.ev3 <= supply ScenarioA.ev3.
Proof.
  destruct (sold_within_supply ScenarioA.s3 scenarioA_s3_reachable) as [H _].
  exact (H _ _ scenarioA_event3).
Defined.

(** C5 at scenario B: the two mints created ids 0 and 1. *)
Lemma ticket_ids_in_mint_order_witness :
  ids_of ScenarioB.EV (mint_log (genesis (fun _ => wallet_balance)) ScenarioB.txs) = [0; 1].
Proof.
  destruct (ticket_ids_in_mint_order (fun _ => wallet_balance) ScenarioB.txs scenarioB_wf)
    as [H _].
  rewrite H; vm_compute; reflexivity.
Defined.

(** C6 at scenario B: ticket 1 of the canceled event can still be checked in
    and refunded. *)
Lemma canceled_event_keeps_ticket_ops_witness :
  canceled ScenarioB.ev = true /\
  (exists s', exec ScenarioB.s (ICheckIn ScenarioB.EV ScenarioB.T1 ScenarioB.O) = Ok s') /\
  (exists s', exec ScenarioB.s (IRefund ScenarioB.EV ScenarioB.T1 (KVault ScenarioB.EV)
                                  ScenarioB.B ScenarioB.O) = Ok s').
Proof.
  destruct (canceled_event_keeps_ticket_ops ScenarioB.s scenarioB_reachable ScenarioB.EV
              ScenarioB.T1 ScenarioB.ev ScenarioB.t1 scenarioB_event eq_refl
              scenarioB_ticket1 eq_refl eq_refl eq_refl) as (Hc & _ & Hr).
  split; [reflexivity|]; split; [exact (Hc _ eq_refl eq_refl) | exact (Hr _ _ eq_refl eq_refl)].
Defined.

(** C7 at scenario B: a stranger cannot move ticket 1, its owner can. *)
Lemma transfer_ticket_spec_witness :
  exec ScenarioB.s (ITransferTicket ScenarioB.T1 (KUser 2) (KUser 3))
    = Err (Custom UnauthorizedTransfer) /\
  exists s', exec ScenarioB.s (ITransferTicket ScenarioB.T1 ScenarioB.B (KUser 3)) = Ok s' /\
    data (s' ScenarioB.T1) = TicketData (mkTicket (KUser 3) ScenarioB.EV 1 false false).
Proof.
  split.
  - exact (proj1 (transfer_ticket_spec ScenarioB.s ScenarioB.T1 (KUser 2) (KUser 3)
                    ScenarioB.t1 scenarioB_ticket1 eq_refl) ltac:(cbv; discriminate)).
  - destruct (transfer_ticket_spec ScenarioB.s ScenarioB.T1 ScenarioB.B (KUser 3)
                ScenarioB.t1 scenarioB_ticket1 eq_refl) as (_ & _ & _ & H & _).
    destruct (H eq_refl eq_refl eq_refl) as (s' & Hx & Ht & _).
    exists s'; split; [exact Hx | exact Ht].
Defined.

(** C8 at the genesis ledger of scenario A: the authority pays the
    1927920 lamports of rent of the 149-byte event account. *)
Lemma initialize_event_spec_witness :
  exists s', exec ScenarioA.s0
               (IInitializeEvent ScenarioA.EV ScenarioA.O 1 1000 2 "Gig" "2025-01-01")
             = Ok s' /\
    data (s' ScenarioA.EV) = EventData ScenarioA.ev1 /\
    lamports (s' ScenarioA.O) = wallet_balance - 1927920.
Proof.
  destruct (initialize_event_spec ScenarioA.s0 (reachable_genesis _) ScenarioA.O 1 1000 2
              "Gig" "2025-01-01" eq_refl eq_refl) as (_ & _ & _ & H).
  destruct (H ltac:(vm_compute; discriminate)
              ltac:(apply Nat.leb_le; reflexivity) ltac:(apply Nat.leb_le; reflexivity))
    as (s' & Hx & _ & Hd & _ & Ho & _).
  exists s'; split; [exact Hx|]; split; [exact Hd | rewrite Ho; vm_compute; reflexivity].
Defined.

(** C9 at scenario B: ticket 0 was checked in; a second check-in fails. *)
Lemma is_used_irreversible_witness :
  exec ScenarioB.s (ICheckIn ScenarioB.EV ScenarioB.T0 ScenarioB.O)
  = Err (Custom AlreadyCheckedIn).
Proof.
  destruct (is_used_irreversible ScenarioB.s ScenarioB.T0 ScenarioB.t0
              scenarioB_ticket0 eq_refl) as [_ H].
  exact (proj1 (H _ _ _ scenarioB_event eq_refl eq_refl eq_refl)).
Defined.

(** C10 at scenario B: canceling the canceled event again succeeds. *)
Lemma cancel_event_idempotent_witness :
  exists s', exec ScenarioB.s (ICancelEvent ScenarioB.EV ScenarioB.O) = Ok s' /\
    data (s' ScenarioB.EV) = EventData ScenarioB.ev.
Proof.
  destruct (cancel_event_idempotent ScenarioB.s ScenarioB.EV ScenarioB.O ScenarioB.ev
              scenarioB_event eq_refl eq_refl eq_refl) as (s' & Hx & Hk).
  exists s'; split; [exact Hx | rewrite Hk; exact scenarioB_event].
Defined.

(** * Further properties of the program *)

(** ** check_in *)

(** [check_in], with the event and ticket accounts loaded and the event
    authority signing, rejects a ticket of another event and a signer other
    than the event's authority with [UnauthorizedCheckIn], a used ticket
    with [AlreadyCheckedIn] and a refunded one with [AlreadyRefunded], in
    this order; otherwise it sets [is_used] and changes nothing else. *)
Theorem check_in_spec (s : State) (ek tk ak : Key) (e : Event) (t : Ticket)
    (Hev : data (s ek) = EventData e) (Ht : data (s tk) = TicketData t)
    (Hsig : is_signer ak = true) :
  let i := ICheckIn ek tk ak in
  (event t <> ek -> exec s i = Err (Custom UnauthorizedCheckIn)) /\
  (event t = ek -> ak <> event_authority e -> exec s i = Err (Custom UnauthorizedCheckIn)) /\
  (event t = ek -> ak = event_authority e -> is_used t = true ->
     exec s i = Err (Custom AlreadyCheckedIn)) /\
  (event t = ek -> ak = event_authority e -> is_used t = false -> refunded t = true ->
     exec s i = Err (Custom AlreadyRefunded)) /\
  (event t = ek -> ak = event_authority e -> is_used t = false -> refunded t = false ->
     exists s', exec s i = Ok s' /\
       data (s' tk) = TicketData (mkTicket (owner t) (event t) (ticket_id t) true false) /\
       lamports (s' tk) = lamports (s tk) /\
       (forall k, k <> tk -> s' k = s k)).
Proof.
  intros i.
  assert (Hx : exec s i =
    let* _ := require (key_eqb (event t) ek) (Custom UnauthorizedCheckIn) in
    let* _ := require (key_eqb ak (event_authority e)) (Custom UnauthorizedCheckIn) in
    let* _ := require (negb (is_used t)) (Custom AlreadyCheckedIn) in
    let* _ := require (negb (refunded t)) (Custom AlreadyRefunded) in
    Ok (set_data s tk (TicketData (set_is_used t true)))).
  { subst i; cbn [exec]; unfold check_in, load_event, load_ticket, signer.
    rewrite Hev, Ht; unfold require at 1; rewrite Hsig; reflexivity. }
  rewrite Hx; clear Hx.
  split; [|split; [|split; [|split]]].
  - intros H; rewrite (key_eqb_false _ _ H); reflexivity.
  - intros <- H; rewrite key_eqb_refl, (key_eqb_false _ _ H); reflexivity.
  - intros <- -> H; rewrite !key_eqb_refl, H; reflexivity.
  - intros <- -> H1 H2; rewrite !key_eqb_refl, H1, H2; reflexivity.
  - intros <- -> H1 H2; rewrite !key_eqb_refl, H1, H2; cbn [require bind negb].
    eexists; split; [reflexivity|].
    unfold set_data, upd; destruct (key_eq_dec tk tk) as [_|]; [|congruence].
    split; [unfold set_is_used; rewrite H2; reflexivity|]; split; [reflexivity|].
    intros k Hk; destruct (key_eq_dec k tk); congruence.
Qed.

(** ** cancel_event *)

(** [cancel_event], with the event loaded and a signer, fails with
    [ConstraintRaw] (changing nothing) unless the signer is the event's
    authority; otherwise it sets [canceled] and leaves every other field of
    the event and every other account unchanged. *)
Theorem cancel_event_spec (s : State) (ek ak : Key) (e : Event)
    (Hev : data (s ek) = EventData e) (Hsig : is_signer ak = true) :
  let i := ICancelEvent ek ak in
  (event_authority e <> ak -> exec s i = Err ConstraintRaw /\ step s i = s) /\
  (event_authority e = ak ->
     exists s', exec s i = Ok s' /\ step s i = s' /\
       data (s' ek) = EventData (mkEvent (event_authority e) (price e) (supply e)
                                   (sold e) true (event_id e) (name e) (date e)) /\
       lamports (s' ek) = lamports (s ek) /\
       (forall k, k <> ek -> s' k = s k)).
Proof.
  intros i.
  assert (Hx : exec s i =
    let* _ := require (key_eqb (event_authority e) ak) ConstraintRaw in
    Ok (set_data s ek (EventData (set_canceled e true)))).
  { subst i; cbn [exec]; unfold cancel_event, load_event, signer.
    rewrite Hev; unfold require at 1; rewrite Hsig; reflexivity. }
  split.
  - intros H; rewrite (key_eqb_false _ _ H) in Hx; cbn [require bind] in Hx.
    split; [exact Hx | exact (step_err _ _ _ Hx)].
  - intros H; rewrite H, key_eqb_refl in Hx; cbn [require bind] in Hx.
    eexists; split; [exact Hx|]; split; [unfold step; rewrite Hx; reflexivity|].
    unfold set_data, upd; destruct (key_eq_dec ek ek) as [_|]; [|congruence].
    split; [reflexivity|]; split; [reflexivity|].
    intros k Hk; destruct (key_eq_dec k ek); congruence.
Qed.

(** ** register_organizer *)

(** [register_organizer] on a reachable ledger, signed by the organizer,
    fails with [ConstraintSeeds] when the registry address is not the one
    derived from the organizer, and with [AccountAlreadyInUse] when it
    already holds an account.  Otherwise the organizer pays the rent still
    due on the new registry account ([OrganizerRegistry::SPACE] = 48 bytes,
    its rent-exempt minimum less what the address already holds): when that
    rent is due and the organizer holds less, it fails with
    [InsufficientFunds]; else it records the organizer and the clock's time
    there, moves the rent from the organizer to the registry, changes no
    other account, and any later registration of the same organizer fails
    with [AccountAlreadyInUse]. *)
Theorem register_organizer_spec (s : State) (Hr : reachable s) (r o : Key) (now : Z)
    (Hsig : is_signer o = true) :
  let i := IRegisterOrganizer r o now in
  let rent := rent_due (lamports (s r)) OrganizerRegistry_SPACE in
  (r <> KOrganizer o -> exec s i = Err ConstraintSeeds) /\
  (r = KOrganizer o -> data (s r) <> NoData -> exec s i = Err AccountAlreadyInUse) /\
  (r = KOrganizer o -> data (s r) = NoData -> 0 < rent -> lamports (s o) < rent ->
     exec s i = Err InsufficientFunds) /\
  (r = KOrganizer o -> data (s r) = NoData -> rent <= lamports (s o) ->
     exists s', exec s i = Ok s' /\
       data (s' r) = OrganizerData (mkOrganizerRegistry o now) /\
       lamports (s' r) = lamports (s r) + rent /\
       lamports (s' o) = lamports (s o) - rent /\
       data (s' o) = data (s o) /\
       (forall k, k <> r -> k <> o -> s' k = s k) /\
       (forall now', exec s' (IRegisterOrganizer r o now') = Err AccountAlreadyInUse)).
Proof.
  intros i rent; pose proof (reachable_inv _ Hr) as Hinv.
  assert (Hx : forall s0 now0, exec s0 (IRegisterOrganizer r o now0) =
    let* s1 := init_at s0 r (KOrganizer o) o OrganizerRegistry_SPACE in
    Ok (set_data s1 r (OrganizerData (mkOrganizerRegistry o now0)))).
  { intros s0 now0; cbn [exec]; unfold register_organizer, signer.
    unfold require at 1; rewrite Hsig; reflexivity. }
  assert (Ho : o <> KOrganizer o) by (intros Heq; rewrite Heq in Hsig; discriminate).
  subst i; split; [|split; [|split]].
  - intros H; rewrite Hx; unfold init_at; rewrite (key_eqb_false _ _ H); reflexivity.
  - intros -> H; rewrite Hx.
    pose proof (reachable_rent_exempt _ Hr _ H) as Hl.
    pose proof (inv_fits _ Hinv (KOrganizer o)) as F.
    destruct (data (s (KOrganizer o))) eqn:D; try discriminate; [congruence|].
    rewrite init_at_in_use; [reflexivity | rewrite D; reflexivity | exact Hl | exact Ho].
  - intros -> H Hpos Hlt; rewrite Hx.
    destruct (init_at_pay s (KOrganizer o) o OrganizerRegistry_SPACE H
                (signer_nodata _ _ Hinv Hsig) Ho) as [Hfail _].
    rewrite (Hfail Hpos Hlt); reflexivity.
  - intros -> H Hle.
    destruct (init_at_pay s (KOrganizer o) o OrganizerRegistry_SPACE H
                (signer_nodata _ _ Hinv Hsig) Ho) as [_ Hpay].
    destruct (Hpay (fun _ => Hle)) as (s1 & Hs1 & Hd & Hl).
    fold rent in Hl.
    exists (set_data s1 (KOrganizer o) (OrganizerData (mkOrganizerRegistry o now))).
    split; [rewrite Hx, Hs1; reflexivity|].
    rewrite !data_set_data, !lamports_set_data, !Hl, !Hd.
    destruct (key_eq_dec (KOrganizer o) (KOrganizer o)); [|congruence].
    destruct (key_eq_dec (KOrganizer o) o); [congruence|].
    destruct (key_eq_dec o o); [|congruence].
    destruct (key_eq_dec o (KOrganizer o)); [congruence|].
    split; [reflexivity|]; split; [lia|]; split; [lia|]; split; [reflexivity|]; split.
    + intros k Hkr Hko.
      apply account_ext; rewrite ?data_set_data, ?lamports_set_data, ?Hl, ?Hd;
        destruct (key_eq_dec k (KOrganizer o)); try congruence;
        destruct (key_eq_dec k o); try congruence; lia.
    + intros now'; rewrite Hx, init_at_in_use; [reflexivity| | |exact Ho].
      * rewrite data_set_data; destruct (key_eq_dec (KOrganizer o) (KOrganizer o));
          [reflexivity|congruence].
      * rewrite lamports_set_data, Hl.
        destruct (key_eq_dec (KOrganizer o) o); [congruence|].
        destruct (key_eq_dec (KOrganizer o) (KOrganizer o)); [|congruence].
        pose proof (rent_due_covers (lamports (s (KOrganizer o))) OrganizerRegistry_SPACE).
        subst rent; lia.
Qed.

(** ** initialize_event: the event address *)

(** [initialize_event] on a reachable ledger, signed by the authority,
    fails with [ConstraintSeeds] when the event address is not the one
    derived from the authority and [event_id], and with
    [AccountAlreadyInUse] when that address already holds an account; so
    once an event is created, every later attempt with the same authority
    and [event_id] fails with [AccountAlreadyInUse], whatever its other
    arguments. *)
Theorem initialize_event_address (s : State) (Hr : reachable s) (ek ak : Key) (eid p sup : Z)
    (nm dt : string) (Hsig : is_signer ak = true) :
  let i := IInitializeEvent ek ak eid p sup nm dt in
  (ek <> KEvent ak eid -> exec s i = Err ConstraintSeeds) /\
  (ek = KEvent ak eid -> data (s ek) <> NoData -> exec s i = Err AccountAlreadyInUse) /\
  (forall s', exec s i = Ok s' ->
     forall p' sup' nm' dt',
       exec s' (IInitializeEvent ek ak eid p' sup' nm' dt') = Err AccountAlreadyInUse).
Proof.
  intros i; pose proof (reachable_inv _ Hr) as Hinv.
  assert (Hx : forall s0 p0 sup0 nm0 dt0, exec s0 (IInitializeEvent ek ak eid p0 sup0 nm0 dt0) =
    let* s1 := init_at s0 ek (KEvent ak eid) ak (Event_space MAX_NAME_LEN MAX_DATE_LEN) in
    let* _ := require (Nat.leb (String.length nm0) MAX_NAME_LEN) (Custom NameTooLong) in
    let* _ := require (Nat.leb (String.length dt0) MAX_DATE_LEN) (Custom DateTooLong) in
    Ok (set_data s1 ek (EventData (mkEvent ak p0 sup0 0 false eid nm0 dt0)))).
  { intros; cbn [exec]; unfold initialize_event, signer.
    unfold require at 1; rewrite Hsig; reflexivity. }
  assert (Ha : ak <> KEvent ak eid) by (intros Heq; rewrite Heq in Hsig; discriminate).
  subst i; split; [|split].
  - intros H; rewrite Hx; unfold init_at; rewrite (key_eqb_false _ _ H); reflexivity.
  - intros -> H; rewrite Hx.
    pose proof (reachable_rent_exempt _ Hr _ H) as Hl.
    pose proof (inv_fits _ Hinv (KEvent ak eid)) as F.
    destruct (data (s (KEvent ak eid))) eqn:D; try discriminate; [congruence|].
    rewrite init_at_in_use; [reflexivity | rewrite D; reflexivity | exact Hl | exact Ha].
  - intros s' Hok p' sup' nm' dt'.
    cbn [exec] in Hok; apply initialize_event_ok in Hok as (_ & -> & _ & _ & _ & Hd & Hl).
    rewrite Hx, init_at_in_use; [reflexivity| | |exact Ha].
    + rewrite Hd; destruct (key_eq_dec (KEvent ak eid) (KEvent ak eid));
        [reflexivity | congruence].
    + rewrite Hl.
      destruct (key_eq_dec (KEvent ak eid) ak); [congruence|].
      destruct (key_eq_dec (KEvent ak eid) (KEvent ak eid)); [|congruence].
      pose proof (rent_due_covers (lamports (s (KEvent ak eid)))
                    (Event_space MAX_NAME_LEN MAX_DATE_LEN)); cbn [space_of]; lia.
Qed.

(** ** mint_ticket: the ticket and vault addresses *)

(** [mint_ticket] on a reachable ledger, with the event loaded and the
    buyer signing, only creates the ticket whose index is the event's
    current [sold]: any other ticket address fails with [ConstraintSeeds].
    At that address the buyer first pays the rent still due on the new
    ticket account, failing with [InsufficientFunds] when that rent is due
    and it holds less, whatever the vault; a buyer who can pay it and
    passes a vault other than the one derived from the event fails with
    [ConstraintSeeds]. *)
Theorem mint_ticket_accounts (s : State) (Hr : reachable s) (ek tk vk b : Key) (e : Event)
    (Hev : data (s ek) = EventData e) (Hsig : is_signer b = true) :
  let i := IMintTicket ek tk vk b in
  let rent := rent_due (lamports (s (KTicket ek (sold e)))) Ticket_SPACE in
  (tk <> KTicket ek (sold e) -> exec s i = Err ConstraintSeeds) /\
  (tk = KTicket ek (sold e) -> 0 < rent -> lamports (s b) < rent ->
     exec s i = Err InsufficientFunds) /\
  (tk = KTicket ek (sold e) -> rent <= lamports (s b) -> vk <> KVault ek ->
     exec s i = Err ConstraintSeeds).
Proof.
  intros i rent; pose proof (reachable_inv _ Hr) as Hinv.
  assert (Hx : exec s i =
    let* s0 := init_at s tk (KTicket ek (sold e)) b Ticket_SPACE in
    let* _ := require (key_eqb vk (KVault ek)) ConstraintSeeds in
    let* _ := require (negb (canceled e)) (Custom EventCanceled) in
    let* _ := require (sold e <? supply e) (Custom EventSoldOut) in
    let* s1 := system_transfer s0 b vk (price e) in
    Ok (set_data (set_data s1 tk (TicketData (mkTicket b ek (sold e) false false)))
          ek (EventData (set_sold e (u32_add (sold e) 1))))).
  { subst i; cbn [exec]; unfold mint_ticket, load_event, signer.
    rewrite Hev; unfold require at 1; rewrite Hsig; reflexivity. }
  assert (Hbt : b <> KTicket ek (sold e)) by (intros Heq; rewrite Heq in Hsig; discriminate).
  destruct (init_at_pay s (KTicket ek (sold e)) b Ticket_SPACE
              (inv_ticket_slot_free _ _ _ Hinv Hev) (signer_nodata _ _ Hinv Hsig) Hbt)
    as [Hfail Hpay].
  fold rent in Hfail, Hpay.
  rewrite Hx; clear Hx; split; [|split].
  - intros H; unfold init_at; rewrite (key_eqb_false _ _ H); reflexivity.
  - intros -> Hpos Hlt; rewrite (Hfail Hpos Hlt); reflexivity.
  - intros -> Hle Hv; destruct (Hpay (fun _ => Hle)) as (s1 & Hs1 & _).
    rewrite Hs1; cbn [bind]; rewrite (key_eqb_false _ _ Hv); reflexivity.
Qed.

(** ** refund *)

(** [refund], on a reachable ledger, with the event and ticket loaded and a
    signer, fails with [ConstraintRaw] unless the signer is the event's
    authority, then with [ConstraintRaw] unless the ticket belongs to the
    event, with [ConstraintSeeds] unless the vault is the event's derived
    vault, with [CannotRefundUsedTicket] for a used ticket and with
    [AlreadyRefunded] for a refunded one; otherwise it succeeds: the vault
    pays [price] to the [ticket_owner] account passed in, the ticket gets
    [refunded = true], and nothing else changes. *)
Theorem refund_spec (s : State) (Hr : reachable s) (ek tk vk o ak : Key)
    (e : Event) (t : Ticket)
    (Hev : data (s ek) = EventData e) (Ht : data (s tk) = TicketData t)
    (Hsig : is_signer ak = true) :
  let i := IRefund ek tk vk o ak in
  (event_authority e <> ak -> exec s i = Err ConstraintRaw) /\
  (event_authority e = ak -> event t <> ek -> exec s i = Err ConstraintRaw) /\
  (event_authority e = ak -> event t = ek -> vk <> KVault ek -> exec s i = Err ConstraintSeeds) /\
  (event_authority e = ak -> event t = ek -> vk = KVault ek -> is_used t = true ->
     exec s i = Err (Custom CannotRefundUsedTicket)) /\
  (event_authority e = ak -> event t = ek -> vk = KVault ek -> is_used t = false ->
     refunded t = true -> exec s i = Err (Custom AlreadyRefunded)) /\
  (event_authority e = ak -> event t = ek -> vk = KVault ek -> is_used t = false ->
     refunded t = false ->
     exists s', exec s i = Ok s' /\
       data (s' tk) = TicketData (mkTicket (owner t) (event t) (ticket_id t) false true) /\
       (forall k, k <> tk -> data (s' k) = data (s k)) /\
       (forall k, lamports (s' k) =
          lamports (s k) - (if key_eq_dec k vk then price e else 0)
                         + (if key_eq_dec k o then price e else 0))).
Proof.
  intros i; pose proof (reachable_inv _ Hr) as Hinv.
  assert (Hx : exec s i =
    let* _ := require (key_eqb (event_authority e) ak) ConstraintRaw in
    let* _ := require (key_eqb (event t) ek) ConstraintRaw in
    let* _ := require (key_eqb vk (KVault ek)) ConstraintSeeds in
    let* _ := require (negb (is_used t)) (Custom CannotRefundUsedTicket) in
    let* _ := require (negb (refunded t)) (Custom AlreadyRefunded) in
    let* s1 := system_transfer s vk o (price e) in
    Ok (set_data s1 tk (TicketData (set_refunded t true)))).
  { subst i; cbn [exec]; unfold refund, load_event, load_ticket, signer.
    rewrite Hev, Ht; unfold require at 1; rewrite Hsig; reflexivity. }
  split; [|split; [|split; [|split; [|split]]]].
  - intros H; rewrite Hx, (key_eqb_false _ _ H); reflexivity.
  - intros Ha H; rewrite Hx, Ha, key_eqb_refl, (key_eqb_false _ _ H); reflexivity.
  - intros Ha Hte H; rewrite Hx, Ha, Hte, !key_eqb_refl, (key_eqb_false _ _ H); reflexivity.
  - intros Ha Hte Hv H; rewrite Hx, Ha, Hte, Hv, !key_eqb_refl, H; reflexivity.
  - intros Ha Hte Hv H1 H2; rewrite Hx, Ha, Hte, Hv, !key_eqb_refl, H1, H2; reflexivity.
  - intros Ha Hte Hv Hu Hrf.
    pose proof (vault_covers_refund _ _ _ _ _ Hinv Hev Ht Hte Hrf) as Hp.
    apply Z.leb_le in Hp.
    assert (Hok : exists s', exec s i = Ok s').
    { rewrite Hx; subst ak vk; rewrite Hte, !key_eqb_refl, Hu, Hrf.
      cbn [require negb bind]; unfold system_transfer.
      rewrite (inv_nodata _ Hinv (KVault ek) eq_refl), Hp; cbn [require bind].
      eexists; reflexivity. }
    destruct Hok as [s' Hok]; exists s'; split; [exact Hok|].
    pose proof Hok as Heff; subst i; cbn [exec] in Heff.
    apply refund_ok in Heff as (e0 & t0 & Hev0 & Ht0 & _ & _ & _ & _ & _ & _ & _ & _ & Hd & Hl).
    rewrite Hev in Hev0; injection Hev0 as <-; rewrite Ht in Ht0; injection Ht0 as <-.
    split; [|split].
    + rewrite Hd; destruct (key_eq_dec tk tk); [|congruence].
      unfold set_refunded; rewrite Hu; reflexivity.
    + intros k Hk; rewrite Hd; destruct (key_eq_dec k tk); congruence.
    + exact Hl.
Qed.

(** ** The vault of an event *)

(** In every reachable ledger the vault of an event holds at least [price]
    times the number of its minted tickets that are not refunded. *)
Theorem vault_solvent (s : State) (Hr : reachable s) (ek : Key) (e : Event)
    (Hev : data (s ek) = EventData e) :
  price e * Z.of_nat (unrefunded_count s ek (Z.to_nat (sold e)))
    <= lamports (s (KVault ek)).
Proof. exact (inv_vault _ (reachable_inv _ Hr) _ _ Hev). Qed.

(** ** How tickets and events evolve *)

Ltac same_record :=
  repeat split; try reflexivity; try (intros Hne; exfalso; now apply Hne).

(** Where a ticket after a successful instruction comes from. *)
Lemma exec_ticket_origin s i s' k t' :
  exec s i = Ok s' -> data (s' k) = TicketData t' ->
  (data (s k) = NoData /\ is_used t' = false /\ refunded t' = false /\
   exists ek vk, i = IMintTicket ek k vk (owner t')) \/
  (exists t, data (s k) = TicketData t /\
   event t' = event t /\ ticket_id t' = ticket_id t /\
   (owner t' <> owner t ->
      exists no, i = ITransferTicket k (owner t) no /\
        is_signer (owner t) = true /\ owner t' = no) /\
   (is_used t' <> is_used t ->
      exists ek e, i = ICheckIn ek k (event_authority e) /\
        data (s ek) = EventData e /\ event t = ek /\
        is_signer (event_authority e) = true /\
        is_used t = false /\ refunded t = false /\ is_used t' = true) /\
   (refunded t' <> refunded t ->
      exists ek o e, i = IRefund ek k (KVault ek) o (event_authority e) /\
        data (s ek) = EventData e /\ event t = ek /\
        is_signer (event_authority e) = true /\
        is_used t = false /\ refunded t = false /\ refunded t' = true)).
Proof.
  intros Hx Hk.
  destruct i as [r o now | ek ak eid p sup nm dt | ek tk vk b | tk co no | ek tk ak
                | ek tk vk o ak | ek ak | f to a]; cbn [exec] in Hx.
  - apply register_organizer_ok in Hx as (_ & _ & _ & Hd & _).
    rewrite Hd in Hk; destruct (key_eq_dec k r); [discriminate|].
    right; exists t'; split; [exact Hk | same_record].
  - apply initialize_event_ok in Hx as (_ & _ & _ & _ & _ & Hd & _).
    rewrite Hd in Hk; destruct (key_eq_dec k ek); [discriminate|].
    right; exists t'; split; [exact Hk | same_record].
  - apply mint_ticket_ok in Hx as (e & _ & _ & _ & Hfree & _ & _ & _ & _ & _ & Hd & _).
    rewrite Hd in Hk; destruct (key_eq_dec k ek); [discriminate|].
    destruct (key_eq_dec k tk) as [->|].
    + injection Hk as <-; left; cbn; split; [exact Hfree|].
      split; [reflexivity|]; split; [reflexivity|]; exists ek, vk; reflexivity.
    + right; exists t'; split; [exact Hk | same_record].
  - apply transfer_ticket_ok in Hx as (t & Ht & Hsig & Ho & _ & _ & Hd & _).
    rewrite Hd in Hk; destruct (key_eq_dec k tk) as [->|].
    + injection Hk as <-; right; exists t; split; [exact Ht|]; cbn.
      split; [reflexivity|]; split; [reflexivity|]; split; [|same_record].
      intros _; exists no; rewrite Ho; auto.
    + right; exists t'; split; [exact Hk | same_record].
  - apply check_in_ok in Hx as (e & t & Hev & Ht & Hsig & Hte & Hak & Hu & Hrf & Hd & _).
    rewrite Hd in Hk; destruct (key_eq_dec k tk) as [->|].
    + injection Hk as <-; right; exists t; split; [exact Ht|]; cbn; subst ak.
      split; [reflexivity|]; split; [reflexivity|]; split; [same_record|].
      split; [|same_record].
      intros _; exists ek, e; auto 7.
    + right; exists t'; split; [exact Hk | same_record].
  - apply refund_ok in Hx as (e & t & Hev & Ht & Hsig & Hak & Hte & Hvk & Hu & Hrf & _ & _ & Hd & _).
    rewrite Hd in Hk; destruct (key_eq_dec k tk) as [->|].
    + injection Hk as <-; right; exists t; split; [exact Ht|]; cbn; subst ak vk.
      split; [reflexivity|]; split; [reflexivity|]; split; [same_record|].
      split; [same_record|].
      intros _; exists ek, o, e; auto 8.
    + right; exists t'; split; [exact Hk | same_record].
  - apply cancel_event_ok in Hx as (e & _ & _ & _ & Hd & _).
    rewrite Hd in Hk; destruct (key_eq_dec k ek); [discriminate|].
    right; exists t'; split; [exact Hk | same_record].
  - apply system_transfer_ix_ok in Hx as (_ & _ & _ & Hd & _).
    rewrite Hd in Hk; right; exists t'; split; [exact Hk | same_record].
Qed.

(** Tickets are never closed. *)
Lemma exec_keeps_ticket s i s' k t :
  exec s i = Ok s' -> data (s k) = TicketData t -> exists t', data (s' k) = TicketData t'.
Proof.
  intros Hx Hk.
  destruct i; cbn [exec] in Hx;
    [ apply register_organizer_ok in Hx as (_ & _ & ? & Hd & _)
    | apply initialize_event_ok in Hx as (_ & _ & ? & _ & _ & Hd & _)
    | apply mint_ticket_ok in Hx as (? & ? & _ & _ & ? & _ & _ & _ & _ & _ & Hd & _)
    | apply transfer_ticket_ok in Hx as (? & _ & _ & _ & _ & _ & Hd & _)
    | apply check_in_ok in Hx as (? & ? & _ & _ & _ & _ & _ & _ & _ & Hd & _)
    | apply refund_ok in Hx as (? & ? & _ & _ & _ & _ & _ & _ & _ & _ & _ & _ & Hd & _)
    | apply cancel_event_ok in Hx as (? & ? & _ & _ & Hd & _)
    | apply system_transfer_ix_ok in Hx as (_ & _ & _ & Hd & _) ];
    rewrite Hd; case_keys; try congruence; eauto.
Qed.

Lemma step_ticket s i k t :
  data (s k) = TicketData t ->
  exists t', data (step s i k) = TicketData t' /\
   event t' = event t /\ ticket_id t' = ticket_id t /\
   (owner t' <> owner t ->
      exists no, i = ITransferTicket k (owner t) no /\
        is_signer (owner t) = true /\ owner t' = no) /\
   (is_used t' <> is_used t ->
      exists ek e, i = ICheckIn ek k (event_authority e) /\
        data (s ek) = EventData e /\ event t = ek /\
        is_signer (event_authority e) = true /\
        is_used t = false /\ refunded t = false /\ is_used t' = true) /\
   (refunded t' <> refunded t ->
      exists ek o e, i = IRefund ek k (KVault ek) o (event_authority e) /\
        data (s ek) = EventData e /\ event t = ek /\
        is_signer (event_authority e) = true /\
        is_used t = false /\ refunded t = false /\ refunded t' = true).
Proof.
  intros Hk; unfold step; destruct (exec s i) as [s'|err] eqn:Hx.
  - destruct (exec_keeps_ticket _ _ _ _ _ Hx Hk) as [t' Ht'].
    exists t'; split; [exact Ht'|].
    destruct (exec_ticket_origin _ _ _ _ _ Hx Ht') as [(Hn & _) | (t0 & Ht0 & R)];
      [congruence|].
    rewrite Hk in Ht0; injection Ht0 as <-; exact R.
  - exists t; split; [exact Hk | same_record].
Qed.

(** In every reachable ledger no ticket is both used and refunded. *)
Lemma reachable_flags s :
  reachable s -> forall k t, data (s k) = TicketData t ->
  is_used t = false \/ refunded t = false.
Proof.
  induction 1 as [bal | s i Hr IH Hwf]; intros k t Hk; [discriminate Hk|].
  unfold step in Hk; destruct (exec s i) as [s'|err] eqn:Hx; [|eauto].
  destruct (exec_ticket_origin _ _ _ _ _ Hx Hk)
    as [(_ & Hu & _) | (t0 & Ht0 & _ & _ & _ & HU & HR)]; [auto|].
  destruct (Bool.bool_dec (is_used t) (is_used t0)) as [Eu|Nu];
  destruct (Bool.bool_dec (refunded t) (refunded t0)) as [Er|Nr].
  - rewrite Eu, Er; eauto.
  - destruct (HR Nr) as (? & ? & ? & _ & _ & _ & _ & Hu0 & _); left; congruence.
  - destruct (HU Nu) as (? & ? & _ & _ & _ & _ & _ & Hr0 & _); right; congruence.
  - destruct (HU Nu) as (? & ? & E1 & _); destruct (HR Nr) as (? & ? & ? & E2 & _).
    rewrite E1 in E2; discriminate.
Qed.

(** What a step does to the fields of an event. *)
Lemma exec_event_origin s i s' k e' :
  exec s i = Ok s' -> data (s' k) = EventData e' ->
  (data (s k) = NoData /\ k = KEvent (event_authority e') (event_id e') /\
   sold e' = 0 /\ canceled e' = false /\
   (String.length (name e') <= MAX_NAME_LEN)%nat /\
   (String.length (date e') <= MAX_DATE_LEN)%nat) \/
  (exists e, data (s k) = EventData e /\
   event_authority e' = event_authority e /\ price e' = price e /\
   supply e' = supply e /\ event_id e' = event_id e /\
   name e' = name e /\ date e' = date e /\
   (canceled e = true -> canceled e' = true)).
Proof.
  intros Hx Hk.
  destruct i as [r o now | ek ak eid p sup nm dt | ek tk vk b | tk co no | ek tk ak
                | ek tk vk o ak | ek ak | f to a]; cbn [exec] in Hx.
  - apply register_organizer_ok in Hx as (_ & _ & _ & Hd & _).
    rewrite Hd in Hk; destruct (key_eq_dec k r); [discriminate|].
    right; exists e'; split; [exact Hk | same_record]; auto.
  - apply initialize_event_ok in Hx as (_ & Hek & Hfree & Hn & Hdt & Hd & _).
    rewrite Hd in Hk; destruct (key_eq_dec k ek) as [->|].
    + injection Hk as <-; left; cbn; subst ek; auto 7.
    + right; exists e'; split; [exact Hk | same_record]; auto.
  - apply mint_ticket_ok in Hx as (e & Hev & _ & _ & _ & _ & _ & _ & _ & _ & Hd & _).
    rewrite Hd in Hk; destruct (key_eq_dec k ek) as [->|].
    + injection Hk as <-; right; exists e; split; [exact Hev|]; cbn; same_record; auto.
    + destruct (key_eq_dec k tk); [discriminate|].
      right; exists e'; split; [exact Hk | same_record]; auto.
  - apply transfer_ticket_ok in Hx as (t & _ & _ & _ & _ & _ & Hd & _).
    rewrite Hd in Hk; destruct (key_eq_dec k tk); [discriminate|].
    right; exists e'; split; [exact Hk | same_record]; auto.
  - apply check_in_ok in Hx as (e & t & _ & _ & _ & _ & _ & _ & _ & Hd & _).
    rewrite Hd in Hk; destruct (key_eq_dec k tk); [discriminate|].
    right; exists e'; split; [exact Hk | same_record]; auto.
  - apply refund_ok in Hx as (e & t & _ & _ & _ & _ & _ & _ & _ & _ & _ & _ & Hd & _).
    rewrite Hd in Hk; destruct (key_eq_dec k tk); [discriminate|].
    right; exists e'; split; [exact Hk | same_record]; auto.
  - apply cancel_event_ok in Hx as (e & Hev & _ & _ & Hd & _).
    rewrite Hd in Hk; destruct (key_eq_dec k ek) as [->|].
    + injection Hk as <-; right; exists e; split; [exact Hev|]; cbn; same_record.
    + right; exists e'; split; [exact Hk | same_record]; auto.
  - apply system_transfer_ix_ok in Hx as (_ & _ & _ & Hd & _).
    rewrite Hd in Hk; right; exists e'; split; [exact Hk | same_record]; auto.
Qed.

(** Events are never closed. *)
Lemma exec_keeps_event s i s' k e :
  exec s i = Ok s' -> data (s k) = EventData e -> exists e', data (s' k) = EventData e'.
Proof.
  intros Hx Hk.
  destruct i; cbn [exec] in Hx;
    [ apply register_organizer_ok in Hx as (_ & _ & ? & Hd & _)
    | apply initialize_event_ok in Hx as (_ & _ & ? & _ & _ & Hd & _)
    | apply mint_ticket_ok in Hx as (? & ? & _ & _ & ? & _ & _ & _ & _ & _ & Hd & _)
    | apply transfer_ticket_ok in Hx as (? & ? & _ & _ & _ & _ & Hd & _)
    | apply check_in_ok in Hx as (? & ? & _ & ? & _ & _ & _ & _ & _ & Hd & _)
    | apply refund_ok in Hx as (? & ? & _ & ? & _ & _ & _ & _ & _ & _ & _ & _ & Hd & _)
    | apply cancel_event_ok in Hx as (? & ? & _ & _ & Hd & _)
    | apply system_transfer_ix_ok in Hx as (_ & _ & _ & Hd & _) ];
    rewrite Hd; case_keys; try congruence; eauto.
Qed.

Lemma step_event s i k e :
  data (s k) = EventData e ->
  exists e', data (step s i k) = EventData e' /\
   event_authority e' = event_authority e /\ price e' = price e /\
   supply e' = supply e /\ event_id e' = event_id e /\
   name e' = name e /\ date e' = date e /\
   (canceled e = true -> canceled e' = true).
Proof.
  intros Hk; unfold step; destruct (exec s i) as [s'|err] eqn:Hx.
  - destruct (exec_keeps_event _ _ _ _ _ Hx Hk) as [e' He'].
    exists e'; split; [exact He'|].
    destruct (exec_event_origin _ _ _ _ _ Hx He') as [(Hn & _) | (e0 & He0 & R)];
      [congruence|].
    rewrite Hk in He0; injection He0 as <-; exact R.
  - exists e; split; [exact Hk | same_record]; auto.
Qed.

(** Every event of a reachable ledger sits at the address derived from its
    authority and id, and its name and date are within the limits. *)
Lemma reachable_event_shape s :
  reachable s -> forall k e, data (s k) = EventData e ->
  k = KEvent (event_authority e) (event_id e) /\
  (String.length (name e) <= MAX_NAME_LEN)%nat /\
  (String.length (date e) <= MAX_DATE_LEN)%nat.
Proof.
  induction 1 as [bal | s i Hr IH Hwf]; intros k e Hk; [discriminate Hk|].
  unfold step in Hk; destruct (exec s i) as [s'|err] eqn:Hx; [|eauto].
  destruct (exec_event_origin _ _ _ _ _ Hx Hk)
    as [(_ & Hek & _ & _ & Hn & Hd) | (e0 & He0 & Ha & _ & _ & Hid & Hn & Hd & _)];
    [auto|].
  rewrite Ha, Hid, Hn, Hd; exact (IH _ _ He0).
Qed.

(** A transaction keeps every ticket: its event and id never change; its
    owner changes only through [transfer_ticket] signed by the current
    owner; [is_used] changes only through [check_in] by the authority of
    the ticket's event, on an unused and unrefunded ticket, and becomes
    true; [refunded] changes only through [refund] with the event's vault,
    by the authority of the ticket's event, on an unused and unrefunded
    ticket, and becomes true. *)
Theorem ticket_fields_step (s : State) (i : Instr) (k : Key) (t : Ticket)
    (Hk : data (s k) = TicketData t) :
  exists t', data (step s i k) = TicketData t' /\
   event t' = event t /\ ticket_id t' = ticket_id t /\
   (owner t' <> owner t ->
      exists no, i = ITransferTicket k (owner t) no /\
        is_signer (owner t) = true /\ owner t' = no) /\
   (is_used t' <> is_used t ->
      exists ek e, i = ICheckIn ek k (event_authority e) /\
        data (s ek) = EventData e /\ event t = ek /\
        is_signer (event_authority e) = true /\
        is_used t = false /\ refunded t = false /\ is_used t' = true) /\
   (refunded t' <> refunded t ->
      exists ek o e, i = IRefund ek k (KVault ek) o (event_authority e) /\
        data (s ek) = EventData e /\ event t = ek /\
        is_signer (event_authority e) = true /\
        is_used t = false /\ refunded t = false /\ refunded t' = true).
Proof. exact (step_ticket s i k t Hk). Qed.

(** In every reachable ledger no ticket is both checked in and refunded. *)
Theorem ticket_never_used_and_refunded (s : State) (Hr : reachable s) (k : Key)
    (t : Ticket) (Ht : data (s k) = TicketData t) :
  is_used t = false \/ refunded t = false.
Proof. exact (reachable_flags s Hr k t Ht). Qed.

Lemma run_keeps_refunded is : forall s k t,
  data (s k) = TicketData t -> refunded t = true ->
  exists t', data (run s is k) = TicketData t' /\ refunded t' = true.
Proof.
  induction is as [|i is IH]; intros s k t Hk Hrf; [eauto|].
  cbn [run fold_left]; fold (run (step s i) is).
  destruct (step_ticket s i k t Hk) as (t' & Ht' & _ & _ & _ & _ & HR).
  apply (IH _ _ t' Ht').
  destruct (Bool.bool_dec (refunded t') (refunded t)) as [E|N]; [congruence|].
  destruct (HR N) as (? & ? & ? & _ & _ & _ & _ & _ & Hf & _); congruence.
Qed.

(** Once a ticket of a reachable ledger is refunded it stays refunded after
    any sequence of transactions, and every operation on it is refused with
    [AlreadyRefunded]: a [check_in] or a second [refund] by the event
    authority, and a [transfer_ticket] by its owner. *)
Theorem refunded_irreversible (s : State) (Hr : reachable s) (tk : Key) (t : Ticket)
    (Ht : data (s tk) = TicketData t) (Hrf : refunded t = true) :
  (forall is, exists t', data (run s is tk) = TicketData t' /\ refunded t' = true) /\
  (forall ek e, data (s ek) = EventData e -> event t = ek ->
     is_signer (event_authority e) = true ->
     exec s (ICheckIn ek tk (event_authority e)) = Err (Custom AlreadyRefunded) /\
     (forall o, exec s (IRefund ek tk (KVault ek) o (event_authority e))
                = Err (Custom AlreadyRefunded))) /\
  (is_signer (owner t) = true ->
     forall no, exec s (ITransferTicket tk (owner t) no) = Err (Custom AlreadyRefunded)).
Proof.
  assert (Hu : is_used t = false)
    by (destruct (reachable_flags s Hr tk t Ht); congruence).
  split; [|split].
  - intros is; exact (run_keeps_refunded is s tk t Ht Hrf).
  - intros ek e Hev Hte Hsig; split; [|intros o]; cbn [exec].
    + unfold check_in, load_event, load_ticket, signer, require.
      rewrite Hev, Ht, Hsig; cbn [bind].
      rewrite Hte, !key_eqb_refl, Hu, Hrf; reflexivity.
    + unfold refund, load_event, load_ticket, signer, require.
      rewrite Hev, Ht, Hsig; cbn [bind].
      rewrite Hte, !key_eqb_refl, Hu, Hrf; reflexivity.
  - intros Hsig no; cbn [exec]; unfold transfer_ticket, load_ticket, signer, require.
    rewrite Ht, Hsig; cbn [bind]; rewrite key_eqb_refl, Hu, Hrf; reflexivity.
Qed.

(** After any sequence of transactions an event is still there with the
    same authority, price, supply, id, name and date, and once canceled it
    stays canceled. *)
Theorem event_fields_stable (s : State) (k : Key) (e : Event)
    (Hk : data (s k) = EventData e) :
  forall is, exists e', data (run s is k) = EventData e' /\
   event_authority e' = event_authority e /\ price e' = price e /\
   supply e' = supply e /\ event_id e' = event_id e /\
   name e' = name e /\ date e' = date e /\
   (canceled e = true -> canceled e' = true).
Proof.
  intros is; revert s e Hk; induction is as [|i is IH]; intros s e Hk.
  - exists e; split; [exact Hk | same_record]; auto.
  - cbn [run fold_left]; fold (run (step s i) is).
    destruct (step_event s i k e Hk) as (e1 & He1 & A1 & P1 & S1 & I1 & N1 & D1 & C1).
    destruct (IH _ _ He1) as (e' & He' & A & P & S & I & N & D & C).
    exists e'; split; [exact He'|].
    repeat split; congruence || auto.
Qed.

(** Every event of a reachable ledger fits in the [Event::space] that
    [initialize_event] allocates for it. *)
Theorem event_fits_space (s : State) (Hr : reachable s) (k : Key) (e : Event)
    (Hev : data (s k) = EventData e) :
  (event_serialized_len e <= Event_space MAX_NAME_LEN MAX_DATE_LEN)%nat.
Proof.
  destruct (reachable_event_shape s Hr k e Hev) as (_ & Hn & Hd).
  unfold event_serialized_len, Event_space; lia.
Qed.

(** Every event of a reachable ledger sits at the address derived from its
    own [event_authority] and [event_id]. *)
Theorem event_address_binds (s : State) (Hr : reachable s) (k : Key) (e : Event)
    (Hev : data (s k) = EventData e) :
  k = KEvent (event_authority e) (event_id e).
Proof. exact (proj1 (reachable_event_shape s Hr k e Hev)). Qed.

(** ** Who can lose lamports *)

(** On a reachable ledger, a well-formed transaction takes lamports from an
    account only if that account signs it, or if the account is the vault
    of an event and the transaction is a [refund] of that event naming it
    as the vault. *)
Theorem lamports_debit_signed (s : State) (Hr : reachable s) (i : Instr)
    (Hwf : instr_wf i) (k : Key)
    (Hdec : lamports (step s i k) < lamports (s k)) :
  In k (signers i) \/ (exists ek tk o ak, k = KVault ek /\ i = IRefund ek tk k o ak).
Proof.
  pose proof (reachable_inv _ Hr) as Hinv.
  unfold step in Hdec; destruct (exec s i) as [s'|err] eqn:Hx; [|lia].
  destruct i as [r o now | ek ak eid p sup nm dt | ek tk vk b | tk co no | ek tk ak
                | ek tk vk o ak | ek ak | f to a]; cbn [exec] in Hx; cbn [signers].
  - apply register_organizer_ok in Hx as (_ & _ & _ & _ & Hl); rewrite Hl in Hdec.
    pose proof (rent_due_nonneg (lamports (s r)) OrganizerRegistry_SPACE).
    destruct (key_eq_dec k o) as [->|]; [left; left; reflexivity|].
    destruct (key_eq_dec k r); lia.
  - apply initialize_event_ok in Hx as (_ & _ & _ & _ & _ & _ & Hl); rewrite Hl in Hdec.
    pose proof (rent_due_nonneg (lamports (s ek)) (Event_space MAX_NAME_LEN MAX_DATE_LEN)).
    destruct (key_eq_dec k ak) as [->|]; [left; left; reflexivity|].
    destruct (key_eq_dec k ek); lia.
  - apply mint_ticket_ok in Hx as (e & Hev & _ & _ & _ & _ & _ & _ & _ & _ & _ & Hl).
    destruct (inv_event _ Hinv _ _ Hev) as (_ & _ & Hp).
    pose proof (rent_due_nonneg (lamports (s tk)) Ticket_SPACE).
    rewrite Hl in Hdec; destruct (key_eq_dec k b) as [->|]; [left; left; reflexivity|].
    destruct (key_eq_dec k vk), (key_eq_dec k tk); lia.
  - apply transfer_ticket_ok in Hx as (_ & _ & _ & _ & _ & _ & _ & Hl); rewrite Hl in Hdec; lia.
  - apply check_in_ok in Hx as (_ & _ & _ & _ & _ & _ & _ & _ & _ & _ & Hl);
      rewrite Hl in Hdec; lia.
  - apply refund_ok in Hx as (e & t & Hev & _ & _ & _ & _ & Hvk & _ & _ & _ & _ & _ & Hl).
    destruct (inv_event _ Hinv _ _ Hev) as (_ & _ & Hp).
    rewrite Hl in Hdec; destruct (key_eq_dec k vk) as [->|].
    + right; exists ek, tk, o, ak; auto.
    + destruct (key_eq_dec k o); lia.
  - apply cancel_event_ok in Hx as (_ & _ & _ & _ & _ & Hl); rewrite Hl in Hdec; lia.
  - apply system_transfer_ix_ok in Hx as (_ & _ & _ & _ & Hl).
    cbn in Hwf; unfold u64_range in Hwf.
    rewrite Hl in Hdec; destruct (key_eq_dec k f) as [->|]; [left; left; reflexivity|].
    destruct (key_eq_dec k to); lia.
Qed.

(** ** Rent of the program's accounts *)

(** On a reachable ledger every account holding a record of the program
    holds at least the rent-exempt minimum of the space its [init]
    allocated: [Event::space(50, 30)] = 149 bytes for an event,
    [Ticket::SPACE] = 78 bytes for a ticket and
    [OrganizerRegistry::SPACE] = 48 bytes for a registry. *)
Theorem records_rent_exempt (s : State) (Hr : reachable s) (k : Key)
    (Hk : data (s k) <> NoData) :
  minimum_balance (space_of (data (s k))) <= lamports (s k).
Proof. exact (reachable_rent_exempt s Hr k Hk). Qed.

(** * Concrete instances of the further properties *)

Lemma scenarioB_refunded_reachable : reachable ScenarioB.s_refunded.
Proof. apply reachable_run; [exact scenarioB_reachable | repeat constructor]. Qed.

Lemma scenarioB_ticket1_refunded :
  data (ScenarioB.s_refunded ScenarioB.T1) = TicketData ScenarioB.t1_refunded.
Proof. vm_compute; reflexivity. Qed.

Lemma scenarioB_refunded_event :
  data (ScenarioB.s_refunded ScenarioB.EV) = EventData ScenarioB.ev.
Proof. vm_compute; reflexivity. Qed.

(** Scenario B: the authority checks ticket 1 in; the buyer cannot. *)
Lemma check_in_spec_witness :
  exec ScenarioB.s (ICheckIn ScenarioB.EV ScenarioB.T1 ScenarioB.B)
    = Err (Custom UnauthorizedCheckIn) /\
  exists s', exec ScenarioB.s (ICheckIn ScenarioB.EV ScenarioB.T1 ScenarioB.O) = Ok s' /\
    data (s' ScenarioB.T1) = TicketData (mkTicket ScenarioB.B ScenarioB.EV 1 true false).
Proof.
  split.
  - destruct (check_in_spec ScenarioB.s ScenarioB.EV ScenarioB.T1 ScenarioB.B
                ScenarioB.ev ScenarioB.t1 scenarioB_event scenarioB_ticket1 eq_refl)
      as (_ & H & _).
    exact (H eq_refl ltac:(cbv; discriminate)).
  - destruct (check_in_spec ScenarioB.s ScenarioB.EV ScenarioB.T1 ScenarioB.O
                ScenarioB.ev ScenarioB.t1 scenarioB_event scenarioB_ticket1 eq_refl)
      as (_ & _ & _ & _ & H).
    destruct (H eq_refl eq_refl eq_refl eq_refl) as (s' & Hx & Ht & _).
    exists s'; split; [exact Hx | exact Ht].
Defined.

(** Scenario B: ticket 1 is refunded to its owner; ticket 0, used, is not. *)
Lemma refund_spec_witness :
  exec ScenarioB.s (IRefund ScenarioB.EV ScenarioB.T0 (KVault ScenarioB.EV)
                      ScenarioB.B ScenarioB.O) = Err (Custom CannotRefundUsedTicket) /\
  exists s', exec ScenarioB.s (IRefund ScenarioB.EV ScenarioB.T1 (KVault ScenarioB.EV)
                                 ScenarioB.B ScenarioB.O) = Ok s' /\
    lamports (s' ScenarioB.B) = lamports (ScenarioB.s ScenarioB.B) + 1000.
Proof.
  split.
  - destruct (refund_spec ScenarioB.s scenarioB_reachable ScenarioB.EV ScenarioB.T0
                (KVault ScenarioB.EV) ScenarioB.B ScenarioB.O ScenarioB.ev ScenarioB.t0
                scenarioB_event scenarioB_ticket0 eq_refl) as (_ & _ & _ & H & _).
    exact (H eq_refl eq_refl eq_refl eq_refl).
  - destruct (refund_spec ScenarioB.s scenarioB_reachable ScenarioB.EV ScenarioB.T1
                (KVault ScenarioB.EV) ScenarioB.B ScenarioB.O ScenarioB.ev ScenarioB.t1
                scenarioB_event scenarioB_ticket1 eq_refl) as (_ & _ & _ & _ & _ & H).
    destruct (H eq_refl eq_refl eq_refl eq_refl eq_refl) as (s' & Hx & _ & _ & Hl).
    exists s'; split; [exact Hx|]; rewrite Hl; reflexivity.
Defined.

(** Scenario A: the buyer cannot cancel the event, its authority can. *)
Lemma cancel_event_spec_witness :
  exec ScenarioA.s3 (ICancelEvent ScenarioA.EV ScenarioA.B) = Err ConstraintRaw /\
  exists s', exec ScenarioA.s3 (ICancelEvent ScenarioA.EV ScenarioA.O) = Ok s' /\
    option_map canceled (event_at s' ScenarioA.EV) = Some true.
Proof.
  split.
  - destruct (cancel_event_spec ScenarioA.s3 ScenarioA.EV ScenarioA.B ScenarioA.ev3
                scenarioA_event3 eq_refl) as [H _].
    exact (proj1 (H ltac:(cbv; discriminate))).
  - destruct (cancel_event_spec ScenarioA.s3 ScenarioA.EV ScenarioA.O ScenarioA.ev3
                scenarioA_event3 eq_refl) as [_ H].
    destruct (H eq_refl) as (s' & Hx & _ & Hd & _).
    exists s'; split; [exact Hx|]; unfold event_at; rewrite Hd; reflexivity.
Defined.

(** Genesis of scenario A: an organizer registers once, not twice. *)
Lemma register_organizer_spec_witness :
  exists s', exec ScenarioA.s0 (IRegisterOrganizer (KOrganizer ScenarioA.O) ScenarioA.O 100)
             = Ok s' /\
    lamports (s' ScenarioA.O) = wallet_balance - 1224960 /\
    exec s' (IRegisterOrganizer (KOrganizer ScenarioA.O) ScenarioA.O 200)
      = Err AccountAlreadyInUse.
Proof.
  destruct (register_organizer_spec ScenarioA.s0 (reachable_genesis _)
              (KOrganizer ScenarioA.O) ScenarioA.O 100 eq_refl) as (_ & _ & _ & H).
  destruct (H eq_refl eq_refl ltac:(vm_compute; discriminate))
    as (s' & Hx & _ & _ & Ho & _ & _ & Hagain).
  exists s'; split; [exact Hx|]; split; [rewrite Ho; vm_compute; reflexivity|].
  exact (Hagain 200).
Defined.

(** Scenario A: the event id 1 of [O] is taken. *)
Lemma initialize_event_address_witness :
  exec ScenarioA.s1 (IInitializeEvent ScenarioA.EV ScenarioA.O 1 5 5 "Other" "2026")
    = Err AccountAlreadyInUse.
Proof.
  destruct (initialize_event_address ScenarioA.s1 scenarioA_s1_reachable ScenarioA.EV
              ScenarioA.O 1 5 5 "Other" "2026" eq_refl) as (_ & H & _).
  exact (H eq_refl ltac:(rewrite scenarioA_event1; discriminate)).
Defined.

(** Scenario A: ticket index 5 cannot be minted while [sold = 0]; in
    scenario C, [B] cannot pay the rent of the next ticket account. *)
Lemma mint_ticket_accounts_witness :
  exec ScenarioA.s1 (IMintTicket ScenarioA.EV (KTicket ScenarioA.EV 5)
                       (KVault ScenarioA.EV) ScenarioA.B) = Err ConstraintSeeds /\
  exec ScenarioC.s (IMintTicket ScenarioC.EV (KTicket ScenarioC.EV 0)
                      (KVault ScenarioC.EV) ScenarioC.B) = Err InsufficientFunds.
Proof.
  split.
  - destruct (mint_ticket_accounts ScenarioA.s1 scenarioA_s1_reachable ScenarioA.EV
                (KTicket ScenarioA.EV 5) (KVault ScenarioA.EV) ScenarioA.B ScenarioA.ev1
                scenarioA_event1 eq_refl) as (H & _).
    exact (H ltac:(cbv; discriminate)).
  - destruct (mint_ticket_accounts ScenarioC.s scenarioC_reachable ScenarioC.EV
                (KTicket ScenarioC.EV 0) (KVault ScenarioC.EV) ScenarioC.B ScenarioC.ev
                scenarioC_event eq_refl) as (_ & H & _).
    exact (H eq_refl ltac:(vm_compute; reflexivity) ltac:(vm_compute; reflexivity)).
Defined.

(** Scenario A: the vault covers both tickets. *)
Lemma vault_solvent_witness :
  price ScenarioA.ev3 * Z.of_nat (unrefunded_count ScenarioA.s3 ScenarioA.EV 2)
    <= lamports (ScenarioA.s3 (KVault ScenarioA.EV)).
Proof.
  exact (vault_solvent ScenarioA.s3 scenarioA_s3_reachable ScenarioA.EV ScenarioA.ev3
           scenarioA_event3).
Defined.

(** Scenario B: the checked-in ticket 0. *)
Lemma ticket_never_used_and_refunded_witness :
  is_used ScenarioB.t0 = false \/ refunded ScenarioB.t0 = false.
Proof.
  exact (ticket_never_used_and_refunded ScenarioB.s scenarioB_reachable ScenarioB.T0
           ScenarioB.t0 scenarioB_ticket0).
Defined.

(** Scenario B after the refund of ticket 1: it can no longer be checked in. *)
Lemma refunded_irreversible_witness :
  exec ScenarioB.s_refunded (ICheckIn ScenarioB.EV ScenarioB.T1 ScenarioB.O)
    = Err (Custom AlreadyRefunded).
Proof.
  destruct (refunded_irreversible ScenarioB.s_refunded scenarioB_refunded_reachable
              ScenarioB.T1 ScenarioB.t1_refunded scenarioB_ticket1_refunded eq_refl)
    as (_ & H & _).
  exact (proj1 (H ScenarioB.EV ScenarioB.ev scenarioB_refunded_event eq_refl eq_refl)).
Defined.

(** Scenario A: the event keeps its name through the two mints. *)
Lemma event_fields_stable_witness :
  exists e', data (ScenarioA.s3 ScenarioA.EV) = EventData e' /\ name e' = "Gig"%string.
Proof.
  destruct (event_fields_stable ScenarioA.s1 ScenarioA.EV ScenarioA.ev1 scenarioA_event1
              [IMintTicket ScenarioA.EV (KTicket ScenarioA.EV 0) (KVault ScenarioA.EV) ScenarioA.B;
               IMintTicket ScenarioA.EV (KTicket ScenarioA.EV 1) (KVault ScenarioA.EV) ScenarioA.B])
    as (e' & He' & _ & _ & _ & _ & Hn & _).
  exists e'; split; [exact He' | exact Hn].
Defined.

(** Scenario B: a transfer of ticket 1 keeps its id. *)
Lemma ticket_fields_step_witness :
  exists t', data (step ScenarioB.s (ITransferTicket ScenarioB.T1 ScenarioB.B (KUser 3))
                     ScenarioB.T1) = TicketData t' /\ ticket_id t' = 1.
Proof.
  destruct (ticket_fields_step ScenarioB.s (ITransferTicket ScenarioB.T1 ScenarioB.B (KUser 3))
              ScenarioB.T1 ScenarioB.t1 scenarioB_ticket1) as (t' & Ht' & _ & Hid & _).
  exists t'; split; [exact Ht' | exact Hid].
Defined.

(** Scenario A: the first mint takes lamports from the buyer, who signs it. *)
Lemma lamports_debit_signed_witness :
  let i := IMintTicket ScenarioA.EV (KTicket ScenarioA.EV 0) (KVault ScenarioA.EV) ScenarioA.B in
  lamports (step ScenarioA.s1 i ScenarioA.B) < lamports (ScenarioA.s1 ScenarioA.B) /\
  (In ScenarioA.B (signers i) \/
   exists ek tk o ak, ScenarioA.B = KVault ek /\ i = IRefund ek tk ScenarioA.B o ak).
Proof.
  intros i.
  assert (Hdec : lamports (step ScenarioA.s1 i ScenarioA.B) < lamports (ScenarioA.s1 ScenarioA.B))
    by (vm_compute; reflexivity).
  split; [exact Hdec|].
  exact (lamports_debit_signed ScenarioA.s1 scenarioA_s1_reachable i I ScenarioA.B Hdec).
Defined.

(** Scenario A: the event fits its account. *)
Lemma event_fits_space_witness :
  (event_serialized_len ScenarioA.ev3 <= Event_space MAX_NAME_LEN MAX_DATE_LEN)%nat.
Proof.
  exact (event_fits_space ScenarioA.s3 scenarioA_s3_reachable ScenarioA.EV ScenarioA.ev3
           scenarioA_event3).
Defined.

(** Scenario A: the event's address. *)
Lemma event_address_binds_witness :
  ScenarioA.EV = KEvent (event_authority ScenarioA.ev3) (event_id ScenarioA.ev3).
Proof.
  exact (event_address_binds ScenarioA.s3 scenarioA_s3_reachable ScenarioA.EV ScenarioA.ev3
           scenarioA_event3).
Defined.

(** Scenario A: ticket 0 holds the rent-exempt minimum of 78 bytes. *)
Lemma records_rent_exempt_witness :
  data (ScenarioA.s3 (KTicket ScenarioA.EV 0)) <> NoData /\
  minimum_balance (space_of (data (ScenarioA.s3 (KTicket ScenarioA.EV 0))))
    <= lamports (ScenarioA.s3 (KTicket ScenarioA.EV 0)).
Proof.
  assert (Hk : data (ScenarioA.s3 (KTicket ScenarioA.EV 0)) <> NoData)
    by (vm_compute; discriminate).
  split; [exact Hk|].
  exact (records_rent_exempt ScenarioA.s3 scenarioA_s3_reachable _ Hk).
Defined.
